(** * The compile-time initializer interpreter of TinyGo: driver and utilities

    A shallow embedding of package [interp] (the [Eval] object, [Run],
    [Function]/[function], [markDirty]) and of the IR comparison helpers of
    its test file ([fuzzyEqualIR], [filterIrrelevantIRLines]), with the
    properties of the driver stated and proved over it. *)

From stdpp Require Import base decidable countable list strings gmap.
From Stdlib Require Import Ascii Arith Lia.

Local Open Scope string_scope.
Local Open Scope list_scope.

(** ** What the program sees of LLVM

    [llvm.Value] is a handle to an object of the LLVM context. The program
    only ever asks LLVM questions about a handle ([IsAGlobalVariable],
    [Operand], [Name], ...), compares handles and uses them as map keys. A
    value is modelled as its handle together with the answers LLVM gives for
    it; in a module built by LLVM the handle determines the rest. *)
Module llvm.

Inductive ValueKind : Type :=
| GlobalVariable (constant : bool)   (* a global; [constant] is IsGlobalConstant *)
| Function                           (* a function, itself a constant *)
| Constant                           (* any other constant: expression, integer... *)
| UndefValue                         (* the undef constant of some type *)
| Argument                           (* a function parameter *)
| BasicBlockValue                    (* a basic block used as a value *)
| AllocaInst
| CallInst                           (* operands: arguments, then the callee *)
| ReturnInst
| UnreachableInst
| BranchInst                         (* unconditional: one operand, the target *)
| StoreInst                          (* operands: the value, then the pointer *)
| GetElementPtrInst
| OtherInst.

#[local] Unset Elimination Schemes.
Inductive Value : Type :=
  mkValue (handle : positive) (kind : ValueKind) (name : string)
          (operands : list Value).
#[local] Set Elimination Schemes.

Definition handle (v : Value) : positive :=
  match v with mkValue h _ _ _ => h end.
Definition kind (v : Value) : ValueKind :=
  match v with mkValue _ k _ _ => k end.
Definition Name (v : Value) : string :=
  match v with mkValue _ _ n _ => n end.
Definition operands (v : Value) : list Value :=
  match v with mkValue _ _ _ ops => ops end.

(** A basic block handle; [None] is the nil block. *)
Definition BasicBlock : Type := option Value.

(** The [IsA...] casts return the value itself or nil; the program only
    tests the result against nil, so they are modelled as booleans
    ([true] for a result that is not nil). *)
Definition IsAGlobalVariable (v : Value) : bool :=
  match kind v with GlobalVariable _ => true | _ => false end.
Definition IsGlobalConstant (v : Value) : bool :=
  match kind v with GlobalVariable c => c | _ => false end.
Definition IsAFunction (v : Value) : bool :=
  match kind v with Function => true | _ => false end.
Definition IsConstant (v : Value) : bool :=
  match kind v with
  | GlobalVariable _ | Function | Constant | UndefValue => true
  | _ => false
  end.
Definition IsABasicBlock (v : Value) : bool :=
  match kind v with BasicBlockValue => true | _ => false end.
Definition IsACallInst (v : Value) : bool :=
  match kind v with CallInst => true | _ => false end.
Definition IsAReturnInst (v : Value) : bool :=
  match kind v with ReturnInst => true | _ => false end.
Definition IsAGetElementPtrInst (v : Value) : bool :=
  match kind v with GetElementPtrInst => true | _ => false end.

Definition OperandsCount (v : Value) : nat := List.length (operands v).
Definition Operand (v : Value) (i : nat) : option Value := operands v !! i.

(** The callee of a call instruction is its last operand. *)
Definition CalledValue (v : Value) : option Value := last (operands v).

(** Constants are unique in a context: [Undef] of a type is one value. *)
Definition Undef (ty : string) : Value := mkValue 1 UndefValue ty [].
Definition Int8Type : string := "i8".
Definition PointerType (elem : string) (addrSpace : nat) : string :=
  String.append elem "*".

(** *** Values as map keys *)

Definition kind_code (k : ValueKind) : nat :=
  match k with
  | GlobalVariable false => 0 | GlobalVariable true => 1
  | Function => 2 | Constant => 3 | UndefValue => 4 | Argument => 5
  | BasicBlockValue => 6 | AllocaInst => 7 | CallInst => 8
  | ReturnInst => 9 | UnreachableInst => 10 | BranchInst => 11
  | StoreInst => 12 | GetElementPtrInst => 13 | OtherInst => 14
  end.
Definition code_kind (n : nat) : ValueKind :=
  match n with
  | 0 => GlobalVariable false | 1 => GlobalVariable true
  | 2 => Function | 3 => Constant | 4 => UndefValue | 5 => Argument
  | 6 => BasicBlockValue | 7 => AllocaInst | 8 => CallInst
  | 9 => ReturnInst | 10 => UnreachableInst | 11 => BranchInst
  | 12 => StoreInst | 13 => GetElementPtrInst | _ => OtherInst
  end.

Lemma code_kind_code k : code_kind (kind_code k) = k.
Proof. destruct k as [[]| | | | | | | | | | | | |]; reflexivity. Qed.

#[global] Instance ValueKind_eq_dec : EqDecision ValueKind.
Proof. solve_decision. Defined.

#[global] Instance ValueKind_countable : Countable ValueKind :=
  inj_countable' kind_code code_kind code_kind_code.

Fixpoint to_tree (v : Value) : gen_tree (positive * ValueKind * string) :=
  match v with
  | mkValue h k n ops => GenNode 0 (GenLeaf (h, k, n) :: map to_tree ops)
  end.

Fixpoint of_tree (t : gen_tree (positive * ValueKind * string)) : Value :=
  match t with
  | GenNode _ (GenLeaf (h, k, n) :: ts) => mkValue h k n (map of_tree ts)
  | _ => mkValue 1 OtherInst "" []
  end.

Lemma of_to_tree (v : Value) : of_tree (to_tree v) = v.
Proof.
  revert v.
  fix IH 1. intros [h k n ops]. simpl. f_equal.
  induction ops as [|o ops IHops]; simpl; [reflexivity|].
  rewrite IH, IHops. reflexivity.
Qed.

#[global] Instance Value_eq_dec : EqDecision Value.
Proof.
  intros x y. destruct (decide (to_tree x = to_tree y)) as [E|N].
  - left. rewrite <- (of_to_tree x), <- (of_to_tree y), E. reflexivity.
  - right. intros ->. apply N. reflexivity.
Defined.

#[global] Instance Value_countable : Countable Value :=
  inj_countable' to_tree of_tree of_to_tree.

(** *** The module

    The IR of a module as LLVM holds it: tables from handles to contents.
    Editing the IR (inserting or erasing an instruction) changes the
    tables; the handles the program holds stay what they are. *)
Record Module_ : Type := mkModule {
  DataLayout : string;
  functionsByName : gmap string Value;      (* the symbol table *)
  paramsOf : gmap Value (list Value);       (* function -> parameters *)
  blocksOf : gmap Value (list Value);       (* function -> basic blocks *)
  instructionsOf : gmap Value (list Value)  (* block -> instructions *)
}.

Definition NamedFunction (m : Module_) (name : string) : option Value :=
  functionsByName m !! name.
Definition Params (m : Module_) (fn : Value) : list Value :=
  default [] (paramsOf m !! fn).
Definition EntryBasicBlock (m : Module_) (fn : Value) : BasicBlock :=
  blocksOf m !! fn ≫= head.
Definition Instructions (m : Module_) (bb : Value) : list Value :=
  default [] (instructionsOf m !! bb).
Definition FirstInstruction (m : Module_) (bb : Value) : option Value :=
  head (Instructions m bb).

(** [inst.EraseFromParentAsInstruction()]: the instruction leaves the
    block that holds it. *)
Definition EraseFromParentAsInstruction (inst : Value) (m : Module_) : Module_ :=
  mkModule (DataLayout m) (functionsByName m) (paramsOf m) (blocksOf m)
           (filter (λ i, i ≠ inst) <$> instructionsOf m).

Fixpoint insertBefore (pos new : Value) (insts : list Value) : list Value :=
  match insts with
  | [] => []
  | i :: rest =>
      if decide (i = pos) then new :: i :: rest
      else i :: insertBefore pos new rest
  end.

(** Every value the tables of the module mention. *)
Definition allValues (m : Module_) : list Value :=
  ((map_to_list (functionsByName m)).*2
   ++ (map_to_list (paramsOf m)).*1 ++ concat (map_to_list (paramsOf m)).*2
   ++ (map_to_list (blocksOf m)).*1 ++ concat (map_to_list (blocksOf m)).*2
   ++ (map_to_list (instructionsOf m)).*1
   ++ concat (map_to_list (instructionsOf m)).*2)%list.

(** A new instruction gets a handle no value of the module has. *)
Definition freshHandle (m : Module_) : positive :=
  Pos.succ (foldr Pos.max 1%positive (handle <$> allValues m)).

(** The builder: its insertion point is before instruction [insertPoint]. *)
Record Builder : Type := mkBuilder { insertPoint : option Value }.

Definition SetInsertPointBefore (b : Builder) (inst : Value) : Builder :=
  mkBuilder (Some inst).

(** [b.CreateAlloca(ty, name)]: a new alloca instruction goes in front of
    the insertion point. *)
Definition CreateAlloca (b : Builder) (ty name : string) (m : Module_)
  : Value * Module_ :=
  let new := mkValue (freshHandle m) AllocaInst name [] in
  match insertPoint b with
  | Some pos =>
      (new, mkModule (DataLayout m) (functionsByName m) (paramsOf m)
                     (blocksOf m) (insertBefore pos new <$> instructionsOf m))
  | None => (new, m)
  end.

End llvm.

(** ** Package [strings] *)
Module strings.

(** [strings.HasPrefix(s, prefix)] *)
Definition HasPrefix (s prefix : string) : bool :=
  (String.length prefix <=? String.length s)%nat
  && String.eqb (String.substring 0 (String.length prefix) s) prefix.

(** [strings.HasSuffix(s, suffix)] *)
Definition HasSuffix (s suffix : string) : bool :=
  (String.length suffix <=? String.length s)%nat
  && String.eqb (String.substring (String.length s - String.length suffix)
                           (String.length suffix) s) suffix.

(** [strings.Split(s, sep)] for a separator of one byte: the pieces of [s]
    between the occurrences of [sep]; one more piece than occurrences. *)
Fixpoint Split1 (s : string) (sep : ascii) : list string :=
  match s with
  | EmptyString => [EmptyString]
  | String c rest =>
      if Ascii.eqb c sep then EmptyString :: Split1 rest sep
      else match Split1 rest sep with
           | [] => [String c EmptyString]
           | piece :: pieces => String c piece :: pieces
           end
  end.

End strings.

(** ** Package [interp] *)

(** Go errors as the driver tells them apart: the package variable
    [ErrUnreachable], which [Run] compares errors with and whose declaration
    is not among the sources (spec, section 4.4: the special error that the
    [unreachable] instruction returns), and the errors made by
    [errors.New]. *)
Inductive error : Type :=
| ErrUnreachable
| errorString (s : string).

#[global] Instance error_eq_dec : EqDecision error.
Proof. solve_decision. Defined.

Module errors.
Definition New (s : string) : error := errorString s.
End errors.

(** Modelled from the spec: the side-effect record (section 3), whose
    declaration is not among the sources; the cache [sideEffectFuncs] maps
    functions to these. *)
Inductive sideEffectResult : Type :=
| pure
| writesParams
| writesGlobals (globals : gset llvm.Value)
| impure
| unknownRecursive.

(** The [Eval] object ([Eval] is a keyword here, hence the name). *)
Record Eval_ : Type := mkEval {
  Mod : llvm.Module_;
  TargetData : string;
  Debug : bool;
  builder : llvm.Builder;
  dirtyGlobals : gset llvm.Value;
  (* cache of side effect scan results; [None] is the nil map *)
  sideEffectFuncs : option (gmap llvm.Value sideEffectResult)
}.

(** The values of the interpreter: the [Value] interface. Its declaration is
    not among the sources; [LocalValue], a struct of the [Eval] and the
    underlying LLVM value, is the implementation that [Run] and [getValue]
    build. The [Eval] is the one every call runs on and is left out. *)
Inductive Value : Type :=
| LocalValue (Underlying : llvm.Value).

(** *** Running code of the package

    A call of the package runs on the one [Eval_] object, and ends by
    returning, by a Go panic, or not at all within the fuel it was given.
    The [Eval_] is kept in every case: a panic does not undo what was written
    before it. *)
Inductive Outcome (A : Type) : Type :=
| Done (a : A)
| Panic (msg : string)
| OutOfFuel.
Arguments Done {A} a.
Arguments Panic {A} msg.
Arguments OutOfFuel {A}.

Definition M (A : Type) : Type := Eval_ → Outcome A * Eval_.

Definition ret {A} (a : A) : M A := λ e, (Done a, e).
Definition panic {A} (msg : string) : M A := λ e, (Panic msg, e).
Definition bind {A B} (m : M A) (k : A → M B) : M B :=
  λ e, match m e with
       | (Done a, e') => k a e'
       | (Panic msg, e') => (Panic msg, e')
       | (OutOfFuel, e') => (OutOfFuel, e')
       end.

Notation "m ≫=ₘ k" := (bind m k) (at level 60, right associativity).

(** markDirty marks the passed-in LLVM value dirty, recursively. For example,
    when it encounters a constant GEP on a global, it marks the global
    dirty. *)
Fixpoint markDirty (v : llvm.Value) : M unit :=
  λ e,
  if llvm.IsAGlobalVariable v then
    if llvm.IsGlobalConstant v then (Done tt, e)
    else if decide (v ∈ dirtyGlobals e) then (Done tt, e)
    else (Done tt,
          mkEval (Mod e) (TargetData e) (Debug e) (builder e)
                 ({[ v ]} ∪ dirtyGlobals e)
                 None (* re-calculate all side effects *))
  else if llvm.IsConstant v then
    match v with
    | llvm.mkValue _ _ _ (op0 :: _ :: _) =>
        if llvm.IsAGlobalVariable op0 then
          (* looks like a constant getelementptr of a global *)
          markDirty op0 e
        else (Done tt, e) (* nothing to mark *)
    | _ => (Done tt, e) (* nothing to mark *)
    end
  else if llvm.IsAGetElementPtrInst v then (Panic "interp: todo: GEP", e)
  else
    (* Not constant and not a global or GEP so doesn't have to be marked
       non-constant. *)
    (Done tt, e).

(** getValue determines what kind of LLVM value it gets and returns the
    appropriate Value type. *)
Definition getValue (v : llvm.Value) : Value := LocalValue v.

(** *** Frames and [function] *)

(** One activation of [function], with the fields [function] gives it. The
    [Eval] a frame points to is the one every call runs on. *)
Record frame : Type := mkFrame {
  fn : llvm.Value;
  pkgName : string;
  locals : gmap llvm.Value Value
}.

(** What [function] returns, [(Value, error)], and what [evalBasicBlock]
    returns, [(retval, outgoing, err)]; [None] is nil in each place. *)
Definition result : Type := option Value * option error.
Definition blockResult : Type :=
  option Value * option (list llvm.Value) * option error.

Definition function_t : Type :=
  llvm.Value → list Value → string → string → M result.

(** [fr.evalBasicBlock(bb, lastBB, indent)] is not among the sources. It is
    a method of the frame, so it may write the frame's locals and the [Eval];
    and it evaluates the calls it meets through [function], which it gets
    here as its first argument. *)
Definition evalBasicBlock_t : Type :=
  function_t → frame → llvm.BasicBlock → llvm.BasicBlock → string →
  M (frame * blockResult).

(** [for i, param := range fn.Params() { fr.locals[param] = params[i] }];
    [None] when [params[i]] is out of range. *)
Fixpoint seedLocals (i : nat) (fnParams : list llvm.Value) (params : list Value)
    (locals : gmap llvm.Value Value) : option (gmap llvm.Value Value) :=
  match fnParams with
  | [] => Some locals
  | param :: rest =>
      match params !! i with
      | Some p => seedLocals (S i) rest params (<[param := p]> locals)
      | None => None
      end
  end.

Definition indexOutOfRange : string := "runtime error: index out of range".

Section interp.

Variable evalBasicBlock : evalBasicBlock_t.

(** The head of [function]: the frame and its locals; then the loop over
    the basic blocks, [loop], from the entry block. *)
Definition functionFrom
    (loop : frame → llvm.BasicBlock → llvm.BasicBlock → string → M result)
    : function_t :=
  λ fn params pkgName indent e,
  match seedLocals 0 (llvm.Params (Mod e) fn) params ∅ with
  | None => (Panic indexOutOfRange, e)
  | Some locals =>
      let fr := mkFrame fn pkgName locals in
      let bb := llvm.EntryBasicBlock (Mod e) fn in
      loop fr bb None indent e
  end.

(** The [for { ... }] of [function]. Each turn evaluates one basic block;
    [fuel] bounds the turns of the loop and the depth of the calls below
    it together. *)
Fixpoint blockLoop (fuel : nat) (fr : frame) (bb lastBB : llvm.BasicBlock)
    (indent : string) : M result :=
  match fuel with
  | O => λ e, (OutOfFuel, e)
  | S fuel' =>
      evalBasicBlock (functionFrom (blockLoop fuel')) fr bb lastBB indent
      ≫=ₘ λ '(fr', (retval, outgoing, err)),
      match outgoing with
      | None =>
          (* returned something (a value or void, or an error) *)
          ret (retval, err)
      | Some outgoing =>
          if (1 <? List.length outgoing)%nat then
            panic "unimplemented: multiple outgoing blocks"
          else
            match outgoing with
            | [] => panic indexOutOfRange
            | next :: _ =>
                if negb (llvm.IsABasicBlock next) then
                  panic "did not switch to a basic block"
                else blockLoop fuel' fr' (Some next) bb indent
            end
      end
  end.

Definition function (fuel : nat) : function_t := functionFrom (blockLoop fuel).

Definition Function (fuel : nat) (fn : llvm.Value) (params : list Value)
    (pkgName : string) : M result :=
  function fuel fn params pkgName "".

(** *** The driver *)

(** What the driver does to the module and asks of the evaluator, in the
    order in which it does it. *)
Inductive Event : Type :=
| Erased (call : llvm.Value)
| Evaluated (fn : llvm.Value) (params : list Value) (pkgName : string).

Definition initAllName : string := "runtime.initAll".

Definition calleeIsFunction (inst : llvm.Value) : bool :=
  match llvm.CalledValue inst with
  | Some callee => llvm.IsAFunction callee
  | None => false
  end.

(** The first loop of [Run], over the instructions of the entry block. *)
Fixpoint collectInitCalls (dummy : llvm.Value) (insts : list llvm.Value)
    (initCalls : list llvm.Value) : error + list llvm.Value :=
  match insts with
  | [] => inr initCalls
  | inst :: rest =>
      if decide (inst = dummy) then collectInitCalls dummy rest initCalls
      else if llvm.IsAReturnInst inst then inr initCalls (* ret void *)
      else if negb (llvm.IsACallInst inst) || negb (calleeIsFunction inst) then
        inl (errors.New (String.append "expected all instructions in "
               (String.append initAllName " to be direct calls")))
      else collectInitCalls dummy rest (initCalls ++ [inst])
  end.

Definition undefPtr : llvm.Value :=
  llvm.Undef (llvm.PointerType llvm.Int8Type 0).

Definition initParams : list Value := [LocalValue undefPtr; LocalValue undefPtr].

Definition withMod (e : Eval_) (m : llvm.Module_) : Eval_ :=
  mkEval m (TargetData e) (Debug e) (builder e) (dirtyGlobals e)
         (sideEffectFuncs e).

(** The second loop of [Run], over the collected calls. *)
Fixpoint runInitCalls (fuel : nat) (initCalls : list llvm.Value) (e : Eval_)
    : list Event * (Outcome (option error) * Eval_) :=
  match initCalls with
  | [] => ([], (Done None, e))
  | call :: rest =>
      match llvm.CalledValue call with
      | None => ([], (Panic "called value is nil", e))
      | Some fn =>
          let initName := llvm.Name fn in
          if negb (strings.HasSuffix initName ".init") then
            ([], (Done (Some (errors.New (String.append
                    "expected all instructions in "
                    (String.append initAllName " to be *.init() calls")))), e))
          else
            let pkgName :=
              String.substring 0 (String.length initName - 5) initName in
            let e1 := withMod e (llvm.EraseFromParentAsInstruction call (Mod e)) in
            let steps := [Erased call; Evaluated fn initParams pkgName] in
            match Function fuel fn initParams pkgName e1 with
            | (Done (_, err), e2) =>
                match err with
                | Some ErrUnreachable => (steps, (Done None, e2))
                | Some err => (steps, (Done (Some err), e2))
                | None =>
                    let '(log, r) := runInitCalls fuel rest e2 in
                    (steps ++ log, r)
                end
            | (Panic msg, e2) => (steps, (Panic msg, e2))
            | (OutOfFuel, e2) => (steps, (OutOfFuel, e2))
            end
      end
  end.

(** Run evaluates the function with the given name and then eliminates all
    callers. The module is edited in place: the result carries the [Eval]
    with the module as [Run] leaves it, next to the error [Run] returns.
    With [debug] set [Run] also prints a header, which is left out. When the
    module has no [runtime.initAll], or the function no block, or the block
    no instruction, [Run] calls LLVM on a nil handle and the process crashes;
    that is a [Panic] here. The steps [Run] takes are returned in front. *)
Definition Run (fuel : nat) (mod_ : llvm.Module_) (debug : bool)
    : list Event * (Outcome (option error) * Eval_) :=
  let name := initAllName in
  let e := mkEval mod_ (llvm.DataLayout mod_) debug (llvm.mkBuilder None) ∅ None in
  match llvm.NamedFunction mod_ name with
  | None => ([], (Panic "nil function", e))      (* LLVM crashes *)
  | Some initAll =>
      match llvm.EntryBasicBlock mod_ initAll with
      | None => ([], (Panic "nil basic block", e))   (* LLVM crashes *)
      | Some bb =>
          match llvm.FirstInstruction mod_ bb with
          | None => ([], (Panic "nil instruction", e))   (* LLVM crashes *)
          | Some first =>
              (* Create a dummy alloca in the entry block that we can set
                 the insert point to. *)
              let b := llvm.SetInsertPointBefore (builder e) first in
              let '(dummy, mod1) := llvm.CreateAlloca b llvm.Int8Type "dummy" mod_ in
              let b := llvm.SetInsertPointBefore b dummy in
              let e := mkEval mod1 (TargetData e) (Debug e) b (dirtyGlobals e)
                              (sideEffectFuncs e) in
              match collectInitCalls dummy (llvm.Instructions mod1 bb) [] with
              | inl err => ([], (Done (Some err), e))
              | inr initCalls => runInitCalls fuel initCalls e
              end
          end
      end
  end.

End interp.

(** *** The frame evaluator, as far as the spec describes it *)

(** The local error of the spec ("an instruction requires runtime
    information"). *)
Definition unevaluable : error := errors.New "unevaluable".

(** Modelled from the spec: what the frame evaluator is configured with and
    what it consults, none of it among the sources: the ceiling on the depth
    of the frames (section 5: "a configurable ceiling"), the side-effect
    analyzer (section 4.3: [classify], from a function to its record), and
    whether abstract memory knows the contents of a global in full (sections
    4.2 and 4.4). *)
Record Policy : Type := mkPolicy {
  ceiling : nat;
  classify : llvm.Value → sideEffectResult;
  contentsKnown : llvm.Value → bool
}.

(** Modelled from the spec: the depth of a frame (section 3: "frames:
    stacked during recursive evaluation; the stack depth bounds recursion").
    [function] hands no stack and no counter to a frame; the depth is read off
    the indent, which is empty for an init and four blanks longer for every
    frame below it. *)
Definition frameDepth (indent : string) : nat := String.length indent / 4.

(** Modelled from the spec: the record of a function, memoized by function
    identity (section 4.3) in the cache [sideEffectFuncs] of the [Eval]: a
    cached record is returned as it is, any other is computed by the analyzer
    and put into the cache. *)
Definition sideEffects (p : Policy) (f : llvm.Value) : M sideEffectResult :=
  λ e,
  match sideEffectFuncs e ≫= (λ cache, cache !! f) with
  | Some r => (Done r, e)
  | None =>
      let r := classify p f in
      (Done r,
       mkEval (Mod e) (TargetData e) (Debug e) (builder e) (dirtyGlobals e)
              (Some (<[f := r]> (default ∅ (sideEffectFuncs e)))))
  end.

(** Modelled from the spec: whether a direct call of a function with record
    [r] is evaluated (section 4.4): when the function is pure or writes
    through its parameters only; when it writes globals, if each of them is
    already dirty or has its contents fully known; otherwise not. *)
Definition mayEvaluate (p : Policy) (r : sideEffectResult) (e : Eval_) : bool :=
  match r with
  | pure | writesParams => true
  | writesGlobals gs =>
      forallb (λ g, bool_decide (g ∈ dirtyGlobals e) || contentsKnown p g)
              (elements gs)
  | impure | unknownRecursive => false
  end.

(** Modelled from the spec: the step of the frame evaluator over one basic
    block, [evalBasicBlock], which is not among the sources. Of the policy of
    section 4.4 it has: ret (frame exit, the return value captured),
    unreachable (the [ErrUnreachable] error), br (one outgoing block), store
    (the global stored to enters the dirty-set, section 3), and the direct
    call. A direct call met in a frame whose depth has reached the ceiling is
    not evaluated: it is [unevaluable] (section 5: "exceeding the ceiling
    yields unevaluable, not a crash"). Below the ceiling the side-effect
    record of the callee decides: the callee is evaluated recursively, through
    [function], with the indent of a frame one deeper, and an error of the
    callee is propagated; or the call is [unevaluable] and left in place.
    Every other instruction is [unevaluable], and so is a block that ends
    without a terminator. *)
Fixpoint evalInstructions (p : Policy) (function : function_t) (fr : frame)
    (insts : list llvm.Value) (indent : string) : M (frame * blockResult) :=
  match insts with
  | [] => ret (fr, (None, None, Some unevaluable))
  | inst :: rest =>
      match llvm.kind inst with
      | llvm.ReturnInst =>
          ret (fr, (getValue <$> llvm.Operand inst 0, None, None))
      | llvm.UnreachableInst => ret (fr, (None, None, Some ErrUnreachable))
      | llvm.BranchInst => ret (fr, (None, Some (llvm.operands inst), None))
      | llvm.CallInst =>
          match llvm.CalledValue inst with
          | Some callee =>
              if negb (llvm.IsAFunction callee) then
                ret (fr, (None, None, Some unevaluable))
              else if (ceiling p <=? frameDepth indent)%nat then
                ret (fr, (None, None, Some unevaluable))
              else
                sideEffects p callee ≫=ₘ λ r e,
                if negb (mayEvaluate p r e) then
                  (Done (fr, (None, None, Some unevaluable)), e)
                else
                  (function callee (getValue <$> removelast (llvm.operands inst))
                            (pkgName fr) (String.append indent "    ")
                   ≫=ₘ λ '(retval, err),
                   match err with
                   | Some err => ret (fr, (None, None, Some err))
                   | None =>
                       let locals' :=
                         match retval with
                         | Some r => <[inst := r]> (locals fr)
                         | None => locals fr
                         end in
                       evalInstructions p function
                         (mkFrame (fn fr) (pkgName fr) locals') rest indent
                   end) e
          | None => ret (fr, (None, None, Some unevaluable))
          end
      | llvm.StoreInst =>
          match llvm.Operand inst 1 with
          | Some ptr =>
              markDirty ptr ≫=ₘ λ _, evalInstructions p function fr rest indent
          | None => ret (fr, (None, None, Some unevaluable))
          end
      | _ => ret (fr, (None, None, Some unevaluable))
      end
  end.

(** Modelled from the spec: [evalBasicBlock] under the policy [p]. *)
Definition evalBasicBlockWith (p : Policy) : evalBasicBlock_t :=
  λ function fr bb lastBB indent e,
  match bb with
  | Some b =>
      evalInstructions p function fr (llvm.Instructions (Mod e) b) indent e
  | None => (Panic "nil basic block", e)
  end.

(** Modelled from the spec: [evalBasicBlock] under the policy of a ceiling
    of 256 frames ("a few hundred frames", section 5) and of an analyzer that
    vouches for no function: every callee is [impure], no contents are known,
    so no call below an init is evaluated. *)
Definition evalBasicBlockSpec : evalBasicBlock_t :=
  evalBasicBlockWith (mkPolicy 256 (λ _, impure) (λ _, false)).

(** ** The IR comparison of the tests *)

Definition newline : ascii := "010"%char.

Fixpoint filterLoop (lines out : list string) : list string :=
  match lines with
  | [] => out
  | line :: rest =>
      if String.eqb line "" || bool_decide (String.get 0 line = Some ";"%char)
      then filterLoop rest out
      else if strings.HasPrefix line "source_filename = " then filterLoop rest out
      else filterLoop rest (out ++ [line])
  end.

(** filterIrrelevantIRLines removes lines from the input slice of strings
    that are not relevant in comparing IR. For example, empty lines and
    comments are stripped out. *)
Definition filterIrrelevantIRLines (lines : list string) : list string :=
  filterLoop lines [].

(** The [for i, line := range lines1] of [fuzzyEqualIR]; [lines2[i]] panics
    when out of range. *)
Fixpoint compareLines (i : nat) (lines1 lines2 : list string) : Outcome bool :=
  match lines1 with
  | [] => Done true
  | line :: rest =>
      match lines2 !! i with
      | None => Panic indexOutOfRange
      | Some line2 =>
          if negb (String.eqb line line2) then Done false
          else compareLines (S i) rest lines2
      end
  end.

(** fuzzyEqualIR returns true if the two LLVM IR strings passed in are
    roughly equal. That means, only relevant lines are compared (excluding
    comments etc.). *)
Definition fuzzyEqualIR (s1 s2 : string) : Outcome bool :=
  let lines1 := filterIrrelevantIRLines (strings.Split1 s1 newline) in
  let lines2 := filterIrrelevantIRLines (strings.Split1 s2 newline) in
  if negb (List.length lines1 =? List.length lines2)%nat then Done false
  else compareLines 0 lines1 lines2.

(** * The vocabulary of the properties *)

(** ** For [markDirty] *)

(** What [markDirty] does to the [Eval_] when it adds [g]. *)
Definition addDirty (g : llvm.Value) (e : Eval_) : Eval_ :=
  mkEval (Mod e) (TargetData e) (Debug e) (builder e)
         ({[ g ]} ∪ dirtyGlobals e) None.

(** A constant that is not itself a global variable, has at least two
    operands, and whose first operand is the global variable [g]. *)
Definition constantOver (v g : llvm.Value) : Prop :=
  llvm.IsAGlobalVariable v = false ∧ llvm.IsConstant v = true ∧
  (2 ≤ llvm.OperandsCount v)%nat ∧ llvm.Operand v 0 = Some g ∧
  llvm.IsAGlobalVariable g = true.

(** The values on which [markDirty] has nothing to look at. *)
Definition nothingToMark (v : llvm.Value) : Prop :=
  llvm.IsAGlobalVariable v = false ∧
  ∀ g, llvm.IsConstant v = true → (2 ≤ llvm.OperandsCount v)%nat →
       llvm.Operand v 0 = Some g → llvm.IsAGlobalVariable g = false.

(** ** For the IR comparison *)

(** [s] begins with [p]. *)
Definition beginsWith (p s : string) : Prop := ∃ rest, s = String.append p rest.

(** The lines the comparison leaves out, in the words of the
    documentation: empty lines, comment lines, the [source_filename]
    line. *)
Definition irrelevantLine (line : string) : Prop :=
  line = "" ∨ (∃ rest, line = String ";"%char rest) ∨
  beginsWith "source_filename = " line.

(** The test [filterIrrelevantIRLines] makes on a line. *)
Definition skipsLine (line : string) : bool :=
  String.eqb line "" || bool_decide (String.get 0 line = Some ";"%char)
  || strings.HasPrefix line "source_filename = ".

(** ** For the driver *)

(** *** The module [Run] works on *)

(** The entry block of the aggregator and its instructions, when the module
    has the function, the function a body and the block an instruction. *)
Definition entryInstructions (m : llvm.Module_)
    : option (llvm.Value * list llvm.Value) :=
  initAll ← llvm.NamedFunction m initAllName;
  bb ← llvm.EntryBasicBlock m initAll;
  match llvm.Instructions m bb with
  | [] => None
  | insts => Some (bb, insts)
  end.

(** The instructions in front of the first return instruction. *)
Fixpoint beforeReturn (insts : list llvm.Value) : list llvm.Value :=
  match insts with
  | [] => []
  | inst :: rest =>
      if llvm.IsAReturnInst inst then [] else inst :: beforeReturn rest
  end.

(** A call instruction whose callee is a function. *)
Definition directCall (inst : llvm.Value) : bool :=
  llvm.IsACallInst inst && calleeIsFunction inst.

(** The init calls of a module: the instructions of the aggregator's entry
    block up to its return, in the order of the block, when each of them is a
    direct call. *)
Definition initCallsOf (m : llvm.Module_) : option (list llvm.Value) :=
  '(_, insts) ← entryInstructions m;
  if forallb directCall (beforeReturn insts) then Some (beforeReturn insts)
  else None.

(** The dummy alloca [Run] creates in module [m]. *)
Definition dummyOf (m : llvm.Module_) : llvm.Value :=
  llvm.mkValue (llvm.freshHandle m) llvm.AllocaInst "dummy" [].

(** The [Eval] with which [Run] enters its loops: the dummy is in the entry
    block, the builder in front of it, nothing is dirty. *)
Definition startEval (m : llvm.Module_) (debug : bool) : Eval_ :=
  match entryInstructions m with
  | Some (_, first :: _) =>
      let b := llvm.mkBuilder (Some first) in
      mkEval (snd (llvm.CreateAlloca b llvm.Int8Type "dummy" m))
             (llvm.DataLayout m) debug (llvm.mkBuilder (Some (dummyOf m))) ∅ None
  | _ => mkEval m (llvm.DataLayout m) debug (llvm.mkBuilder None) ∅ None
  end.

Definition notDirectCalls : error :=
  errors.New "expected all instructions in runtime.initAll to be direct calls".
Definition notInitCalls : error :=
  errors.New "expected all instructions in runtime.initAll to be *.init() calls".

(** The package name [Run] derives from the name of a callee. *)
Definition pkgNameOf (fn : llvm.Value) : string :=
  String.substring 0 (String.length (llvm.Name fn) - 5) (llvm.Name fn).

(** The name of the callee of [call] ends with [.init]. *)
Definition acceptedInit (call : llvm.Value) : bool :=
  match llvm.CalledValue call with
  | Some fn => strings.HasSuffix (llvm.Name fn) ".init"
  | None => false
  end.

(** What the driver does for one accepted call. *)
Definition stepsOf (call : llvm.Value) : list Event :=
  match llvm.CalledValue call with
  | Some fn => [Erased call; Evaluated fn initParams (pkgNameOf fn)]
  | None => []
  end.

(** The [Eval] in which the callee of [call] is evaluated, coming from [e]:
    the call is erased. *)
Definition erasedFor (call : llvm.Value) (e : Eval_) : Eval_ :=
  withMod e (llvm.EraseFromParentAsInstruction call (Mod e)).

(** The evaluation of the callee of [call], from [e]. *)
Definition evalInit (evalBasicBlock : evalBasicBlock_t) (fuel : nat)
    (call : llvm.Value) (e : Eval_) : Outcome result * Eval_ :=
  match llvm.CalledValue call with
  | Some fn =>
      Function evalBasicBlock fuel fn initParams (pkgNameOf fn) (erasedFor call e)
  | None => (Panic "called value is nil", e)
  end.

(** The [Eval] after the calls [calls], from [e], when each of them is
    accepted and evaluates without an error. *)
Fixpoint afterInits (evalBasicBlock : evalBasicBlock_t) (fuel : nat)
    (calls : list llvm.Value) (e : Eval_) : option Eval_ :=
  match calls with
  | [] => Some e
  | call :: rest =>
      if acceptedInit call then
        match evalInit evalBasicBlock fuel call e with
        | (Done (_, None), e2) => afterInits evalBasicBlock fuel rest e2
        | _ => None
        end
      else None
  end.

(** ** Small modules to run the definitions on *)
Module Fixtures.
Import llvm.

Definition fnV (h : positive) (name : string) : llvm.Value :=
  mkValue h llvm.Function name [].
Definition argV (h : positive) (name : string) : llvm.Value :=
  mkValue h Argument name [].
Definition callI (h : positive) (callee : llvm.Value) : llvm.Value :=
  mkValue h CallInst "" [callee].
Definition retI (h : positive) : llvm.Value := mkValue h ReturnInst "" [].
Definition unreachableI (h : positive) : llvm.Value := mkValue h UnreachableInst "" [].
Definition otherI (h : positive) : llvm.Value := mkValue h OtherInst "" [].
Definition globalV (h : positive) (name : string) (c : bool) : llvm.Value :=
  mkValue h (GlobalVariable c) name [].
Definition constInt (h : positive) (text : string) : llvm.Value :=
  mkValue h Constant text [].
Definition storeI (h : positive) (ptr : llvm.Value) : llvm.Value :=
  mkValue h StoreInst "" [constInt 2 "i32 3"; ptr].
(** [getelementptr (@g, 0, 1)] as a constant expression *)
Definition constGEP (h : positive) (g : llvm.Value) : llvm.Value :=
  mkValue h Constant "getelementptr" [g; constInt 3 "i32 0"; constInt 4 "i32 1"].

Definition initAll : llvm.Value := fnV 10 "runtime.initAll".
Definition aInit : llvm.Value := fnV 11 "a.init".
Definition bInit : llvm.Value := fnV 12 "b.init".
Definition x : llvm.Value := globalV 30 "a.x" false.
Definition y : llvm.Value := globalV 31 "a.y" false.
Definition k : llvm.Value := globalV 32 "a.k" true.

Definition emptyModule : Module_ := mkModule "e-p:32:32" ∅ ∅ ∅ ∅.

(** An [Eval_] in which [y] is dirty and the cache holds a result. *)
Definition evalWithCache : Eval_ :=
  mkEval emptyModule "e-p:32:32" false (mkBuilder None) {[ y ]}
         (Some {[ aInit := pure ]}).

(** *** Programs: an aggregator and some init functions *)

Definition bbOf (f : llvm.Value) : llvm.Value :=
  mkValue (handle f + 100) BasicBlockValue "entry" [].

(** The module with the aggregator [runtime.initAll], whose entry block
    holds [entry], and the functions [fns], each with its parameters and the
    instructions of its one block. *)
Definition program (entry : list llvm.Value)
    (fns : list (llvm.Value * list llvm.Value * list llvm.Value)) : Module_ :=
  mkModule "e-p:32:32"
    (list_to_map ((λ f, (Name f, f)) <$> (initAll :: fns.*1.*1)))
    (list_to_map ((initAll, []) :: ((λ d, (d.1.1, d.1.2)) <$> fns)))
    (list_to_map ((initAll, [bbOf initAll])
                  :: ((λ d, (d.1.1, [bbOf d.1.1])) <$> fns)))
    (list_to_map ((bbOf initAll, entry) :: ((λ d, (bbOf d.1.1, d.2)) <$> fns))).

Definition callA : llvm.Value := callI 40 aInit.
Definition callB : llvm.Value := callI 41 bInit.

(** [a.init] stores to [x] and returns; [b.init] stores to [y] and then
    meets an instruction that cannot be evaluated. *)
Definition progFails : Module_ :=
  program [callA; callB; retI 42]
    [ (aInit, [], [storeI 43 x; retI 44]);
      (bInit, [], [storeI 45 y; otherI 46; retI 47]) ].

(** [a.init] runs into [unreachable]; [b.init] just returns. *)
Definition progUnreachable : Module_ :=
  program [callA; callB; retI 42]
    [ (aInit, [], [unreachableI 43]); (bInit, [], [retI 44]) ].

(** The second call of the aggregator is to [main.start]. *)
Definition start : llvm.Value := fnV 13 "main.start".
Definition callStart : llvm.Value := callI 41 start.
Definition progBadName : Module_ :=
  program [callA; callStart; retI 42]
    [ (aInit, [], [retI 43]); (start, [], [retI 44]) ].
Definition progUnreachableBadName : Module_ :=
  program [callA; callStart; retI 42]
    [ (aInit, [], [unreachableI 43]); (start, [], [retI 44]) ].

(** The aggregator starts with an instruction that is not a call. *)
Definition progNotCall : Module_ :=
  program [otherI 39; callA; retI 42] [ (aInit, [], [retI 43]) ].

(** An aggregator without init calls. *)
Definition progNoInits : Module_ := program [retI 42] [].

(** [a.init] takes three parameters. *)
Definition progArity : Module_ :=
  program [callA; retI 42]
    [ (aInit, [argV 70 "p"; argV 71 "q"; argV 72 "r"], [retI 43]) ].


End Fixtures.




(** ** For the further properties *)

(** The global that [markDirty] looks at for [v]: [v] itself when it is a
    global variable, the first operand of [v] when [v] is some other constant
    with at least two operands and that operand is a global variable. *)
Definition markedGlobal (v : llvm.Value) : option llvm.Value :=
  if llvm.IsAGlobalVariable v then Some v
  else if llvm.IsConstant v then
    match llvm.operands v with
    | op0 :: _ :: _ => if llvm.IsAGlobalVariable op0 then Some op0 else None
    | _ => None
    end
  else None.

(** The global that [markDirty] makes dirty for [v], if any: the one it
    looks at, unless that is a global constant. *)
Definition dirtied (v : llvm.Value) : option llvm.Value :=
  match markedGlobal v with
  | Some g => if llvm.IsGlobalConstant g then None else Some g
  | None => None
  end.

(** The byte [c] occurs in [s]. *)
Fixpoint occursIn (c : ascii) (s : string) : bool :=
  match s with
  | EmptyString => false
  | String c' rest => Ascii.eqb c' c || occursIn c rest
  end.

(** Lines put together again, with [sep] between them. *)
Fixpoint joinLines (sep : ascii) (lines : list string) : string :=
  match lines with
  | [] => EmptyString
  | [line] => line
  | line :: rest => String.append line (String sep (joinLines sep rest))
  end.

(** More programs. *)
Module MoreFixtures.
Import llvm Fixtures.

(** [a.init] stores to [x], [b.init] through a constant getelementptr to
    [y]; both return. *)
Definition progBothReturn : Module_ :=
  program [callA; callB; retI 42]
    [ (aInit, [], [storeI 43 x; retI 44]);
      (bInit, [], [storeI 45 (constGEP 50 y); retI 46]) ].

(** [a.init] takes two parameters and returns the second. *)
Definition p0 : llvm.Value := argV 70 "context".
Definition p1 : llvm.Value := argV 71 "parentHandle".
Definition progTwoParams : Module_ :=
  program [callA; retI 42] [ (aInit, [p0; p1], [retI 43]) ].

End MoreFixtures.

(** * The properties *)

(** ** Properties of [markDirty] *)
Section markDirty_facts.

Implicit Types (e : Eval_) (v g : llvm.Value).

Lemma markDirty_global e g :
  llvm.IsAGlobalVariable g = true →
  markDirty g e =
    if llvm.IsGlobalConstant g then (Done tt, e)
    else if decide (g ∈ dirtyGlobals e) then (Done tt, e)
    else (Done tt, addDirty g e).
Proof. intros Hg. destruct g as [h k n ops]. simpl. rewrite Hg. reflexivity. Qed.

Lemma markDirty_constantOver e v g :
  constantOver v g → markDirty v e = markDirty g e.
Proof.
  intros (Hv & Hc & Hn & Hop & Hg).
  destruct v as [h k n ops]. unfold llvm.OperandsCount, llvm.Operand in *.
  simpl in Hn, Hop.
  destruct ops as [|op0 [|op1 ops]]; simpl in Hn; try lia.
  simpl in Hop. injection Hop as ->.
  cbn [markDirty]. rewrite Hv, Hc, Hg. reflexivity.
Qed.

Lemma markDirty_nothingToMark e v :
  nothingToMark v →
  markDirty v e =
    if llvm.IsConstant v then (Done tt, e)
    else if llvm.IsAGetElementPtrInst v then (Panic "interp: todo: GEP", e)
    else (Done tt, e).
Proof.
  intros [Hv Hop]. destruct v as [h k n ops]. cbn [markDirty]. rewrite Hv.
  destruct (llvm.IsConstant _) eqn:Hc; [|reflexivity].
  destruct ops as [|op0 [|op1 ops]]; try reflexivity.
  rewrite (Hop op0); [reflexivity|reflexivity| |reflexivity].
  unfold llvm.OperandsCount. simpl. lia.
Qed.

(** [markDirty] either adds one global that is a variable, not a constant,
    and was not yet dirty, dropping the cache; or it changes nothing. *)
Lemma markDirty_cases v e :
  snd (markDirty v e) = e ∨
  ∃ g, llvm.IsAGlobalVariable g = true ∧ llvm.IsGlobalConstant g = false ∧
       (g ∉ dirtyGlobals e) ∧ markDirty v e = (Done tt, addDirty g e).
Proof.
  assert (Hglob : ∀ g, llvm.IsAGlobalVariable g = true →
    snd (markDirty g e) = e ∨
    ∃ g', llvm.IsAGlobalVariable g' = true ∧ llvm.IsGlobalConstant g' = false ∧
          (g' ∉ dirtyGlobals e) ∧ markDirty g e = (Done tt, addDirty g' e)).
  { intros g Hg. rewrite (markDirty_global e g Hg).
    destruct (llvm.IsGlobalConstant g) eqn:Hc; [left; reflexivity|].
    destruct (decide (g ∈ dirtyGlobals e)); [left; reflexivity|].
    right. exists g. auto. }
  destruct (llvm.IsAGlobalVariable v) eqn:Hv; [apply Hglob, Hv|].
  destruct v as [h k n ops]. cbn [markDirty]. rewrite Hv.
  destruct (llvm.IsConstant _).
  - destruct ops as [|op0 [|op1 ops]]; try (left; reflexivity).
    destruct (llvm.IsAGlobalVariable op0) eqn:H0; [|left; reflexivity].
    apply Hglob, H0.
  - destruct (llvm.IsAGetElementPtrInst _); left; reflexivity.
Qed.

End markDirty_facts.

(** C4. [markDirty] on a global variable that is not a constant and is not
    yet in the dirty-set adds it and, in the same step, sets the whole cache
    [sideEffectFuncs] to nil; when the global is already dirty nothing
    changes, the cache included. A constant that is not itself a global
    variable, has at least two operands and has a global variable as its first
    operand (a constant getelementptr of a global) is treated as that
    global. *)
Theorem markDirty_invalidates_cache (e : Eval_) (v g : llvm.Value) :
  (v = g ∨ constantOver v g) →
  llvm.IsAGlobalVariable g = true →
  llvm.IsGlobalConstant g = false →
  (g ∉ dirtyGlobals e →
     markDirty v e =
       (Done tt, mkEval (Mod e) (TargetData e) (Debug e) (builder e)
                        ({[ g ]} ∪ dirtyGlobals e) None)) ∧
  (g ∈ dirtyGlobals e → markDirty v e = (Done tt, e)).
Proof.
  intros Hv Hg Hnc.
  assert (markDirty v e = markDirty g e) as ->.
  { destruct Hv as [->|Hv]; [reflexivity|]. apply markDirty_constantOver, Hv. }
  rewrite (markDirty_global e g Hg), Hnc.
  split; intros Hin; destruct (decide (g ∈ dirtyGlobals e)); done.
Qed.

Lemma markDirty_invalidates_cache_witness :
  markDirty (Fixtures.constGEP 50 Fixtures.x) Fixtures.evalWithCache
  = (Done tt, mkEval Fixtures.emptyModule "e-p:32:32" false (llvm.mkBuilder None)
                     ({[ Fixtures.x ]} ∪ {[ Fixtures.y ]}) None)
  ∧ markDirty Fixtures.y Fixtures.evalWithCache = (Done tt, Fixtures.evalWithCache).
Proof.
  split.
  - apply (markDirty_invalidates_cache Fixtures.evalWithCache
             (Fixtures.constGEP 50 Fixtures.x) Fixtures.x).
    + right. unfold constantOver, llvm.OperandsCount. simpl.
      repeat split; try reflexivity. lia.
    + reflexivity.
    + reflexivity.
    + vm_compute. intros H. discriminate H.
  - apply (markDirty_invalidates_cache Fixtures.evalWithCache Fixtures.y Fixtures.y).
    + left. reflexivity.
    + reflexivity.
    + reflexivity.
    + vm_compute. reflexivity.
Defined.

(** C9. The dirty-set only grows and never holds a read-only global:
    [markDirty] on a global constant returns with the [Eval] as it was;
    whatever its argument, [markDirty] removes nothing from [dirtyGlobals],
    and a dirty-set without global constants stays without them; on a value
    that is neither a global variable nor a constant over a global it leaves
    the [Eval], so [dirtyGlobals] and the cache, as they were (it returns,
    except on a getelementptr instruction, where it panics having changed
    nothing). [Run] starts from the empty dirty-set, and its own step on the
    [Eval], erasing a call, leaves the dirty-set as it is. *)
Theorem dirtyGlobals_only_grows (e : Eval_) (v : llvm.Value) :
  (llvm.IsAGlobalVariable v = true → llvm.IsGlobalConstant v = true →
     markDirty v e = (Done tt, e)) ∧
  dirtyGlobals e ⊆ dirtyGlobals (snd (markDirty v e)) ∧
  ((∀ g, g ∈ dirtyGlobals e → llvm.IsGlobalConstant g = false) →
   ∀ g, g ∈ dirtyGlobals (snd (markDirty v e)) → llvm.IsGlobalConstant g = false) ∧
  (llvm.IsAGlobalVariable v = false → (∀ g, ¬ constantOver v g) →
     snd (markDirty v e) = e ∧
     (fst (markDirty v e) = Done tt ∨
      llvm.IsAGetElementPtrInst v = true ∧
      fst (markDirty v e) = Panic "interp: todo: GEP")) ∧
  (∀ m debug, dirtyGlobals (startEval m debug) = ∅) ∧
  (∀ call, dirtyGlobals (erasedFor call e) = dirtyGlobals e).
Proof.
  split; [|split; [|split; [|split; [|split]]]];
    [| | | |intros m debug; unfold startEval;
            destruct (entryInstructions m) as [[? [|? ?]]|]; reflexivity
     |reflexivity].
  - intros Hg Hc. rewrite (markDirty_global e v Hg), Hc. reflexivity.
  - destruct (markDirty_cases v e) as [->|(g & _ & _ & _ & ->)]; [done|].
    simpl. set_solver.
  - intros Hinv g.
    destruct (markDirty_cases v e) as [->|(g' & _ & Hnc & _ & ->)]; [apply Hinv|].
    simpl. intros [->%elem_of_singleton|Hin]%elem_of_union; [exact Hnc|].
    apply Hinv, Hin.
  - intros Hv Hno.
    rewrite (markDirty_nothingToMark e v).
    + destruct (llvm.IsConstant v); [auto|].
      destruct (llvm.IsAGetElementPtrInst v); auto.
    + split; [exact Hv|]. intros g Hc Hn Hop.
      destruct (llvm.IsAGlobalVariable g) eqn:Hg; [|reflexivity].
      exfalso. apply (Hno g). repeat split; assumption.
Qed.

Lemma dirtyGlobals_only_grows_witness :
  markDirty Fixtures.k Fixtures.evalWithCache = (Done tt, Fixtures.evalWithCache)
  ∧ snd (markDirty (Fixtures.otherI 60) Fixtures.evalWithCache)
    = Fixtures.evalWithCache.
Proof.
  destruct (dirtyGlobals_only_grows Fixtures.evalWithCache Fixtures.k)
    as (Hconst & _).
  destruct (dirtyGlobals_only_grows Fixtures.evalWithCache (Fixtures.otherI 60))
    as (_ & _ & _ & Hother & _).
  split.
  - apply Hconst; reflexivity.
  - apply Hother; [reflexivity|].
    intros g (_ & Hc & _). discriminate Hc.
Defined.

Example markDirty_constant_global :
  markDirty (Fixtures.constGEP 50 Fixtures.k) Fixtures.evalWithCache
  = (Done tt, Fixtures.evalWithCache).
Proof. vm_compute. reflexivity. Qed.

Example markDirty_gep_instruction :
  markDirty (llvm.mkValue 51 llvm.GetElementPtrInst "p" [Fixtures.x])
            Fixtures.evalWithCache
  = (Panic "interp: todo: GEP", Fixtures.evalWithCache).
Proof. vm_compute. reflexivity. Qed.

(** ** Properties of the IR comparison *)

Example Split1_lines :
  strings.Split1 "a
b
" newline = ["a"; "b"; ""].
Proof. reflexivity. Qed.

Example Split1_empty : strings.Split1 "" newline = [""].
Proof. reflexivity. Qed.

Example fuzzyEqualIR_ignores_comments :
  fuzzyEqualIR "; ModuleID = 'basic'
source_filename = basic.ll

@v1 = global i32 3
define void @main() {" "@v1 = global i32 3
; the entry point
define void @main() {
" = Done true.
Proof. vm_compute. reflexivity. Qed.

Example fuzzyEqualIR_sees_a_change :
  fuzzyEqualIR "@v1 = global i32 3" "@v1 = global i32 4" = Done false.
Proof. vm_compute. reflexivity. Qed.

Example HasSuffix_init :
  strings.HasSuffix "runtime.init" ".init" = true ∧
  strings.HasSuffix "init" ".init" = false ∧
  pkgNameOf Fixtures.aInit = "a".
Proof. repeat split. Qed.

Section fuzzyEqualIR_facts.

Lemma substring_0_append (p rest : string) :
  String.substring 0 (String.length p) (String.append p rest) = p.
Proof. induction p as [|c p IH]; simpl; [destruct rest|rewrite IH]; reflexivity. Qed.

Lemma length_append (p rest : string) :
  String.length (String.append p rest) = (String.length p + String.length rest)%nat.
Proof. induction p as [|c p IH]; simpl; [|rewrite IH]; reflexivity. Qed.

Lemma substring_0_split (n : nat) (s : string) :
  (n ≤ String.length s)%nat →
  ∃ rest, s = String.append (String.substring 0 n s) rest.
Proof.
  revert s. induction n as [|n IH]; intros s Hn.
  - exists s. destruct s; reflexivity.
  - destruct s as [|c s]; simpl in Hn; [lia|].
    destruct (IH s) as [rest Hrest]; [lia|].
    exists rest.
    change (String c s = String c (String.append (String.substring 0 n s) rest)).
    f_equal. exact Hrest.
Qed.

Lemma HasPrefix_beginsWith (s p : string) :
  strings.HasPrefix s p = true ↔ beginsWith p s.
Proof.
  unfold strings.HasPrefix, beginsWith. rewrite andb_true_iff, Nat.leb_le, String.eqb_eq.
  split.
  - intros [Hlen Hsub]. destruct (substring_0_split _ _ Hlen) as [rest Hrest].
    exists rest. rewrite Hsub in Hrest. exact Hrest.
  - intros [rest ->]. rewrite length_append, substring_0_append. split; [lia|reflexivity].
Qed.

Lemma skipsLine_irrelevant (line : string) :
  skipsLine line = true ↔ irrelevantLine line.
Proof.
  unfold skipsLine, irrelevantLine.
  rewrite !orb_true_iff, String.eqb_eq, bool_decide_eq_true, HasPrefix_beginsWith.
  assert (String.get 0 line = Some ";"%char ↔ ∃ rest, line = String ";"%char rest) as ->.
  { destruct line as [|c rest]; simpl.
    - split; [discriminate|intros [? ?]; discriminate].
    - split; [intros [= ->]; eauto|intros [? [= -> ?]]; reflexivity]. }
  tauto.
Qed.

#[global] Instance irrelevantLine_dec (line : string) : Decision (irrelevantLine line).
Proof.
  destruct (skipsLine line) eqn:E.
  - left. apply skipsLine_irrelevant, E.
  - right. intros H. apply skipsLine_irrelevant in H. congruence.
Defined.

(** The lines of [s] that are compared. *)
Definition keptLines (s : string) : list string :=
  filter (λ line, ¬ irrelevantLine line) (strings.Split1 s newline).

Lemma filterLoop_filter (lines out : list string) :
  filterLoop lines out = (out ++ filter (λ line, ¬ irrelevantLine line) lines)%list.
Proof.
  revert out. induction lines as [|line rest IH]; intros out; simpl.
  - rewrite app_nil_r. reflexivity.
  - rewrite filter_cons.
    destruct (decide (¬ irrelevantLine line)) as [Hk|Hk].
    + assert (skipsLine line = false) as Hs.
      { destruct (skipsLine line) eqn:E; [|reflexivity].
        exfalso. apply Hk, skipsLine_irrelevant, E. }
      unfold skipsLine in Hs. apply orb_false_iff in Hs as [-> ->].
      rewrite IH, <- app_assoc. reflexivity.
    + assert (skipsLine line = true) as Hs.
      { destruct (skipsLine line) eqn:E; [reflexivity|].
        exfalso. apply Hk. intros H. apply skipsLine_irrelevant in H. congruence. }
      unfold skipsLine in Hs. apply orb_true_iff in Hs as [->| ->].
      * apply IH.
      * destruct (_ || _); apply IH.
Qed.

Lemma filterIrrelevantIRLines_filter (lines : list string) :
  filterIrrelevantIRLines lines = filter (λ line, ¬ irrelevantLine line) lines.
Proof. unfold filterIrrelevantIRLines. rewrite filterLoop_filter. reflexivity. Qed.

Lemma compareLines_eq (pre lines1 lines2 : list string) :
  List.length lines1 = List.length lines2 →
  compareLines (List.length pre) lines1 (pre ++ lines2)
  = Done (bool_decide (lines1 = lines2)).
Proof.
  revert pre lines2. induction lines1 as [|l1 lines1 IH]; intros pre [|l2 lines2] Hlen;
    simpl in Hlen; try discriminate.
  - reflexivity.
  - simpl. rewrite lookup_app_r, Nat.sub_diag by lia. simpl.
    destruct (String.eqb l1 l2) eqn:E; simpl.
    + apply String.eqb_eq in E as ->.
      replace (pre ++ l2 :: lines2)%list with ((pre ++ [l2]) ++ lines2)%list
        by (rewrite <- app_assoc; reflexivity).
      replace (S (List.length pre)) with (List.length (pre ++ [l2]))
        by (rewrite length_app; simpl; lia).
      rewrite IH by lia. f_equal. apply bool_decide_ext. split; congruence.
    + apply String.eqb_neq in E. f_equal. symmetry. apply bool_decide_eq_false.
      congruence.
Qed.

Lemma fuzzyEqualIR_decides (s1 s2 : string) :
  fuzzyEqualIR s1 s2 = Done (bool_decide (keptLines s1 = keptLines s2)).
Proof.
  unfold fuzzyEqualIR, keptLines. rewrite !filterIrrelevantIRLines_filter.
  set (k1 := filter _ (strings.Split1 s1 _)). set (k2 := filter _ (strings.Split1 s2 _)).
  destruct (List.length k1 =? List.length k2)%nat eqn:E; simpl.
  - apply Nat.eqb_eq in E. apply (compareLines_eq [] k1 k2 E).
  - apply Nat.eqb_neq in E. f_equal. symmetry. apply bool_decide_eq_false.
    congruence.
Qed.

End fuzzyEqualIR_facts.

(** C8. [fuzzyEqualIR] compares what is left of its two inputs once the
    empty lines, the lines that start with [;] and the lines that begin with
    [source_filename = ] are taken out, and nothing else
    ([filterIrrelevantIRLines] removes exactly these); it returns true
    exactly when the two remaining sequences have the same length and agree
    line by line, it always returns, and it is reflexive and symmetric. *)
Theorem fuzzyEqualIR_compares_kept_lines (s1 s2 : string) :
  (∀ lines, filterIrrelevantIRLines lines
            = filter (λ line, ¬ irrelevantLine line) lines) ∧
  (fuzzyEqualIR s1 s2 = Done true ↔
     List.length (keptLines s1) = List.length (keptLines s2) ∧
     ∀ i, keptLines s1 !! i = keptLines s2 !! i) ∧
  (fuzzyEqualIR s1 s2 = Done true ∨ fuzzyEqualIR s1 s2 = Done false) ∧
  fuzzyEqualIR s1 s1 = Done true ∧
  fuzzyEqualIR s2 s1 = fuzzyEqualIR s1 s2.
Proof.
  split; [exact filterIrrelevantIRLines_filter|].
  rewrite !fuzzyEqualIR_decides. split; [split|repeat split].
  - intros [= E]. apply bool_decide_eq_true in E. rewrite E. split; reflexivity.
  - intros [_ E]. f_equal. apply bool_decide_eq_true. apply list_eq, E.
  - destruct (bool_decide _); auto.
  - f_equal. apply bool_decide_eq_true. reflexivity.
  - f_equal. apply bool_decide_ext. split; congruence.
Qed.

(** ** Properties of the driver *)

(** *** The module [Run] works on *)

Lemma handle_le_max (h : positive) (hs : list positive) :
  h ∈ hs → (h ≤ foldr Pos.max 1 hs)%positive.
Proof.
  induction hs as [|h' hs IH]; simpl.
  - intros H. apply elem_of_nil in H. contradiction.
  - intros [->|H]%elem_of_cons; [lia|]. specialize (IH H). lia.
Qed.

Lemma instruction_in_allValues (m : llvm.Module_) (bb i : llvm.Value) :
  i ∈ llvm.Instructions m bb → i ∈ llvm.allValues m.
Proof.
  unfold llvm.Instructions, llvm.allValues. intros Hi.
  destruct (llvm.instructionsOf m !! bb) as [l|] eqn:Hl; simpl in Hi;
    [|apply elem_of_nil in Hi; contradiction].
  rewrite !elem_of_app. do 6 right.
  apply list_elem_of_In, in_concat. exists l. split.
  - apply list_elem_of_In, list_elem_of_fmap. exists (bb, l). split; [reflexivity|].
    apply elem_of_map_to_list, Hl.
  - apply list_elem_of_In, Hi.
Qed.

Lemma dummy_fresh (m : llvm.Module_) (bb : llvm.Value) :
  dummyOf m ∉ llvm.Instructions m bb.
Proof.
  intros Hin. apply instruction_in_allValues in Hin.
  assert (llvm.handle (dummyOf m) ∈ llvm.handle <$> llvm.allValues m) as Hh.
  { apply list_elem_of_fmap_2, Hin. }
  apply handle_le_max in Hh. unfold dummyOf, llvm.freshHandle in Hh. simpl in Hh.
  lia.
Qed.

Lemma Instructions_fmap (f : list llvm.Value → list llvm.Value) (m : llvm.Module_)
    (bb : llvm.Value) :
  f [] = [] →
  default [] (f <$> llvm.instructionsOf m !! bb) = f (llvm.Instructions m bb).
Proof.
  intros Hf. unfold llvm.Instructions.
  destruct (llvm.instructionsOf m !! bb); simpl; [reflexivity|]. rewrite Hf. reflexivity.
Qed.

Lemma Instructions_erase (call : llvm.Value) (m : llvm.Module_) (bb : llvm.Value) :
  llvm.Instructions (llvm.EraseFromParentAsInstruction call m) bb
  = filter (λ i, i ≠ call) (llvm.Instructions m bb).
Proof.
  unfold llvm.Instructions at 1. simpl. rewrite lookup_fmap.
  apply (Instructions_fmap (filter (λ i, i ≠ call))). reflexivity.
Qed.

Lemma startEval_instructions (m : llvm.Module_) (debug : bool)
    (bb : llvm.Value) (insts : list llvm.Value) :
  entryInstructions m = Some (bb, insts) →
  llvm.Instructions (Mod (startEval m debug)) bb = dummyOf m :: insts.
Proof.
  intros He. unfold startEval. rewrite He.
  assert (insts = llvm.Instructions m bb ∧ insts ≠ []) as [Hi Hne].
  { unfold entryInstructions in He.
    destruct (llvm.NamedFunction m initAllName) as [f|]; simpl in He; [|discriminate].
    destruct (llvm.EntryBasicBlock m f) as [b|]; simpl in He; [|discriminate].
    destruct (llvm.Instructions m b) eqn:E; [discriminate|].
    injection He as <- <-. rewrite E. split; [reflexivity|discriminate]. }
  destruct insts as [|first rest]; [contradiction|].
  unfold llvm.CreateAlloca. simpl.
  unfold llvm.Instructions at 1. simpl. rewrite lookup_fmap.
  rewrite (Instructions_fmap
             (llvm.insertBefore first
                (llvm.mkValue (llvm.freshHandle m) llvm.AllocaInst "dummy" [])))
    by reflexivity.
  rewrite <- Hi. simpl. rewrite decide_True by reflexivity. reflexivity.
Qed.

Section driver_loops.

Variable ev : evalBasicBlock_t.

(** The first loop: it collects the instructions in front of the return,
    or fails on the first of them that is not a direct call. *)
Lemma collectInitCalls_spec (dummy : llvm.Value) (insts acc : list llvm.Value) :
  dummy ∉ insts →
  collectInitCalls dummy insts acc =
    if forallb directCall (beforeReturn insts)
    then inr (acc ++ beforeReturn insts)%list
    else inl notDirectCalls.
Proof.
  revert acc. induction insts as [|inst rest IH]; intros acc Hd; simpl.
  - rewrite app_nil_r. reflexivity.
  - apply not_elem_of_cons in Hd as [Hne Hd].
    rewrite decide_False by congruence.
    destruct (llvm.IsAReturnInst inst); simpl.
    + rewrite app_nil_r. reflexivity.
    + unfold directCall at 1.
      destruct (llvm.IsACallInst inst); simpl; [|reflexivity].
      destruct (calleeIsFunction inst); simpl; [|reflexivity].
      rewrite IH by assumption. rewrite <- app_assoc. reflexivity.
Qed.

Lemma collectInitCalls_dummy (dummy : llvm.Value) (insts acc : list llvm.Value) :
  collectInitCalls dummy (dummy :: insts) acc = collectInitCalls dummy insts acc.
Proof. simpl. rewrite decide_True by reflexivity. reflexivity. Qed.

Lemma entryInstructions_inv (m : llvm.Module_) (bb : llvm.Value)
    (insts : list llvm.Value) :
  entryInstructions m = Some (bb, insts) →
  ∃ initAll first rest,
    llvm.NamedFunction m initAllName = Some initAll ∧
    llvm.EntryBasicBlock m initAll = Some bb ∧
    llvm.Instructions m bb = insts ∧ insts = first :: rest.
Proof.
  unfold entryInstructions. intros He.
  destruct (llvm.NamedFunction m initAllName) as [f|] eqn:Hf; simpl in He;
    [|discriminate].
  destruct (llvm.EntryBasicBlock m f) as [b|] eqn:Hb; simpl in He; [|discriminate].
  destruct (llvm.Instructions m b) as [|first rest] eqn:E; [discriminate|].
  injection He as <- <-. exists f, first, rest. auto.
Qed.

(** [Run] up to its second loop. *)
Lemma Run_start (fuel : nat) (m : llvm.Module_) (debug : bool)
    (bb : llvm.Value) (insts : list llvm.Value) :
  entryInstructions m = Some (bb, insts) →
  Run ev fuel m debug =
    if forallb directCall (beforeReturn insts)
    then runInitCalls ev fuel (beforeReturn insts) (startEval m debug)
    else ([], (Done (Some notDirectCalls), startEval m debug)).
Proof.
  intros He.
  pose proof (startEval_instructions m debug bb insts He) as Hstart.
  destruct (entryInstructions_inv m bb insts He)
    as (initAll & first & rest & Hf & Hb & Hi & ->).
  unfold startEval in *. rewrite He in *.
  unfold Run. rewrite Hf, Hb. unfold llvm.FirstInstruction. rewrite Hi.
  change (head (first :: rest)) with (Some first). cbv iota beta.
  unfold llvm.SetInsertPointBefore.
  destruct (llvm.CreateAlloca _ _ _ m) as [dummy m1] eqn:Hc.
  assert (dummy = dummyOf m) as ->.
  { unfold llvm.CreateAlloca in Hc. simpl in Hc. injection Hc as <- _. reflexivity. }
  cbn [snd Mod TargetData Debug dirtyGlobals sideEffectFuncs] in *.
  rewrite Hstart, collectInitCalls_dummy, collectInitCalls_spec.
  - cbn [app]. destruct (forallb _ _); reflexivity.
  - rewrite <- Hi. apply dummy_fresh.
Qed.

Lemma Run_initCalls (fuel : nat) (m : llvm.Module_) (debug : bool)
    (calls : list llvm.Value) :
  initCallsOf m = Some calls →
  Run ev fuel m debug = runInitCalls ev fuel calls (startEval m debug).
Proof.
  unfold initCallsOf. intros Hc.
  destruct (entryInstructions m) as [[bb insts]|] eqn:He; simpl in Hc; [|discriminate].
  rewrite (Run_start fuel m debug bb insts He).
  destruct (forallb _ _); [|discriminate]. injection Hc as <-. reflexivity.
Qed.

(** One turn of the second loop. *)
Lemma runInitCalls_cons (fuel : nat) (call : llvm.Value) (rest : list llvm.Value)
    (e : Eval_) :
  acceptedInit call = true →
  runInitCalls ev fuel (call :: rest) e =
    match evalInit ev fuel call e with
    | (Done (_, None), e2) =>
        (stepsOf call ++ fst (runInitCalls ev fuel rest e2),
         snd (runInitCalls ev fuel rest e2))%list
    | (Done (_, Some ErrUnreachable), e2) => (stepsOf call, (Done None, e2))
    | (Done (_, Some err), e2) => (stepsOf call, (Done (Some err), e2))
    | (Panic msg, e2) => (stepsOf call, (Panic msg, e2))
    | (OutOfFuel, e2) => (stepsOf call, (OutOfFuel, e2))
    end.
Proof.
  unfold acceptedInit, evalInit, stepsOf. intros Ha. simpl.
  destruct (llvm.CalledValue call) as [fn|]; [|discriminate].
  rewrite Ha. simpl. fold (pkgNameOf fn). fold (erasedFor call e).
  destruct (Function _ _ _ _ _ _) as [[[r [[|msg]|]]|msg|] e2]; try reflexivity.
  destruct (runInitCalls ev _ _ _) as [log r']. reflexivity.
Qed.

Lemma runInitCalls_rejected (fuel : nat) (call : llvm.Value)
    (rest : list llvm.Value) (e : Eval_) :
  directCall call = true → acceptedInit call = false →
  runInitCalls ev fuel (call :: rest) e = ([], (Done (Some notInitCalls), e)).
Proof.
  unfold directCall, calleeIsFunction, acceptedInit. intros Hd Ha. simpl.
  destruct (llvm.CalledValue call) as [fn|].
  - rewrite Ha. reflexivity.
  - rewrite andb_false_r in Hd. discriminate.
Qed.

(** The second loop after a prefix of calls that evaluate without error. *)
Lemma runInitCalls_app (fuel : nat) (pre rest : list llvm.Value) (e e1 : Eval_) :
  afterInits ev fuel pre e = Some e1 →
  runInitCalls ev fuel (pre ++ rest) e =
    (flat_map stepsOf pre ++ fst (runInitCalls ev fuel rest e1),
     snd (runInitCalls ev fuel rest e1))%list.
Proof.
  revert e. induction pre as [|call pre IH]; intros e Ha.
  - injection Ha as ->. simpl. destruct (runInitCalls ev _ _ _). reflexivity.
  - cbn [afterInits] in Ha.
    destruct (acceptedInit call) eqn:Hacc; [|discriminate].
    change ((call :: pre) ++ rest)%list with (call :: (pre ++ rest))%list.
    rewrite (runInitCalls_cons fuel call (pre ++ rest) e Hacc).
    destruct (evalInit ev fuel call e) as [[[r [err|]]| |] e2]; try discriminate.
    rewrite (IH e2 Ha). simpl flat_map. rewrite <- app_assoc. reflexivity.
Qed.

End driver_loops.

(** *** What [Run] does with the init calls *)
Section driver_claims.

Variable ev : evalBasicBlock_t.

(** [Run] up to and including the first init that ends in an error. *)
Lemma Run_at_error (fuel : nat) (m : llvm.Module_) (debug : bool)
    (pre : list llvm.Value) (call : llvm.Value) (post : list llvm.Value)
    (e1 e2 : Eval_) (r : option Value) (err : error) :
  initCallsOf m = Some (pre ++ call :: post)%list →
  afterInits ev fuel pre (startEval m debug) = Some e1 →
  acceptedInit call = true →
  evalInit ev fuel call e1 = (Done (r, Some err), e2) →
  Run ev fuel m debug =
    ((flat_map stepsOf pre ++ stepsOf call)%list,
     (Done (if decide (err = ErrUnreachable) then None else Some err), e2)).
Proof.
  intros Hc Hpre Hacc Hev.
  rewrite (Run_initCalls ev fuel m debug _ Hc).
  rewrite (runInitCalls_app ev fuel pre (call :: post) _ e1 Hpre).
  rewrite (runInitCalls_cons ev fuel call post e1 Hacc), Hev.
  destruct err; reflexivity.
Qed.

Lemma erasedFor_gone (call : llvm.Value) (e : Eval_) (bb : llvm.Value) :
  call ∉ llvm.Instructions (Mod (erasedFor call e)) bb.
Proof.
  unfold erasedFor. simpl. rewrite Instructions_erase.
  intros [Hne _]%list_elem_of_filter. apply Hne. reflexivity.
Qed.

(** The steps of the loop are those of an initial part of the calls. *)
Lemma runInitCalls_log (fuel : nat) (calls : list llvm.Value) (e : Eval_) :
  ∃ k, fst (runInitCalls ev fuel calls e) = flat_map stepsOf (take k calls).
Proof.
  revert e. induction calls as [|call rest IH]; intros e.
  - exists 0%nat. reflexivity.
  - destruct (acceptedInit call) eqn:Hacc.
    + rewrite (runInitCalls_cons ev fuel call rest e Hacc).
      destruct (evalInit ev fuel call e) as [[[r [[|msg]|]]|msg|] e2];
        try (exists 1%nat; simpl; rewrite app_nil_r; reflexivity).
      destruct (IH e2) as [k Hk]. exists (S k). simpl. rewrite Hk. reflexivity.
    + exists 0%nat. unfold acceptedInit in Hacc. simpl.
      destruct (llvm.CalledValue call); [|reflexivity]. rewrite Hacc. reflexivity.
Qed.

End driver_claims.

(** C3. When the evaluation of an init returns [ErrUnreachable], [Run] stops
    there: its steps are those of the calls up to this one, none of a later
    call, and it returns nil. Any other error of an evaluation stops the loop
    in the same way and is returned to the caller. *)
Theorem Run_stops_at_first_error (ev : evalBasicBlock_t) (fuel : nat)
    (m : llvm.Module_) (debug : bool)
    (pre : list llvm.Value) (call : llvm.Value) (post : list llvm.Value)
    (e1 e2 : Eval_) (r : option Value) (err : error) :
  initCallsOf m = Some (pre ++ call :: post)%list →
  afterInits ev fuel pre (startEval m debug) = Some e1 →
  acceptedInit call = true →
  evalInit ev fuel call e1 = (Done (r, Some err), e2) →
  fst (Run ev fuel m debug) = flat_map stepsOf (pre ++ [call]) ∧
  (err = ErrUnreachable → snd (Run ev fuel m debug) = (Done None, e2)) ∧
  (err ≠ ErrUnreachable → snd (Run ev fuel m debug) = (Done (Some err), e2)).
Proof.
  intros Hc Hpre Hacc Hev.
  rewrite (Run_at_error ev fuel m debug pre call post e1 e2 r err Hc Hpre Hacc Hev).
  simpl. split; [|split].
  - rewrite flat_map_app. simpl. rewrite app_nil_r. reflexivity.
  - intros ->. reflexivity.
  - intros Hne. rewrite decide_False by exact Hne. reflexivity.
Qed.

Lemma Run_stops_at_first_error_witness :
  initCallsOf Fixtures.progUnreachable = Some ([] ++ Fixtures.callA :: [Fixtures.callB])%list ∧
  evalInit evalBasicBlockSpec 3 Fixtures.callA (startEval Fixtures.progUnreachable false)
  = (Done (None, Some ErrUnreachable),
     erasedFor Fixtures.callA (startEval Fixtures.progUnreachable false)) ∧
  fst (Run evalBasicBlockSpec 3 Fixtures.progUnreachable false)
  = flat_map stepsOf ([] ++ [Fixtures.callA]) ∧
  snd (Run evalBasicBlockSpec 3 Fixtures.progUnreachable false)
  = (Done None, erasedFor Fixtures.callA (startEval Fixtures.progUnreachable false)).
Proof.
  assert (initCallsOf Fixtures.progUnreachable
          = Some ([] ++ Fixtures.callA :: [Fixtures.callB])%list) as H1
    by (vm_compute; reflexivity).
  assert (evalInit evalBasicBlockSpec 3 Fixtures.callA
            (startEval Fixtures.progUnreachable false)
          = (Done (None, Some ErrUnreachable),
             erasedFor Fixtures.callA (startEval Fixtures.progUnreachable false))) as H4
    by (vm_compute; reflexivity).
  destruct (Run_stops_at_first_error evalBasicBlockSpec 3 Fixtures.progUnreachable
              false [] Fixtures.callA [Fixtures.callB]
              (startEval Fixtures.progUnreachable false)
              (erasedFor Fixtures.callA (startEval Fixtures.progUnreachable false))
              None ErrUnreachable H1 eq_refl eq_refl H4) as (Hlog & Hnil & _).
  exact (conj H1 (conj H4 (conj Hlog (Hnil eq_refl)))).
Defined.

(** C1, as the code has it. When the evaluation of an init ends in an error
    other than [ErrUnreachable], [Run] hands that error to its caller and
    restores nothing: the [Eval] it leaves (module, dirty-set, cache) is the
    one the failed evaluation left. The evaluation itself started from the
    [Eval] of the inits before it with only the call erased, so no part of it
    was set aside, and the call is in no block of that module. *)
Theorem Run_failure_restores_nothing (ev : evalBasicBlock_t) (fuel : nat)
    (m : llvm.Module_) (debug : bool)
    (pre : list llvm.Value) (call : llvm.Value) (post : list llvm.Value)
    (e1 e2 : Eval_) (r : option Value) (err : error) :
  initCallsOf m = Some (pre ++ call :: post)%list →
  afterInits ev fuel pre (startEval m debug) = Some e1 →
  acceptedInit call = true →
  evalInit ev fuel call e1 = (Done (r, Some err), e2) →
  err ≠ ErrUnreachable →
  snd (Run ev fuel m debug) = (Done (Some err), e2) ∧
  (∃ fn, llvm.CalledValue call = Some fn ∧
     Function ev fuel fn initParams (pkgNameOf fn) (erasedFor call e1)
     = (Done (r, Some err), e2)) ∧
  dirtyGlobals (erasedFor call e1) = dirtyGlobals e1 ∧
  sideEffectFuncs (erasedFor call e1) = sideEffectFuncs e1 ∧
  ∀ bb, call ∉ llvm.Instructions (Mod (erasedFor call e1)) bb.
Proof.
  intros Hc Hpre Hacc Hev Hne.
  rewrite (Run_at_error ev fuel m debug pre call post e1 e2 r err Hc Hpre Hacc Hev).
  rewrite decide_False by exact Hne.
  split; [reflexivity|]. split.
  - unfold evalInit in Hev. unfold acceptedInit in Hacc.
    destruct (llvm.CalledValue call) as [fn|]; [|discriminate]. eauto.
  - repeat split. apply erasedFor_gone.
Qed.

Lemma Run_failure_restores_nothing_witness :
  initCallsOf Fixtures.progFails = Some ([Fixtures.callA] ++ Fixtures.callB :: [])%list ∧
  snd (Run evalBasicBlockSpec 3 Fixtures.progFails false)
  = (Done (Some unevaluable),
     snd (evalInit evalBasicBlockSpec 3 Fixtures.callB
            (erasedFor Fixtures.callA
               (addDirty Fixtures.x (startEval Fixtures.progFails false))))).
Proof.
  assert (initCallsOf Fixtures.progFails
          = Some ([Fixtures.callA] ++ Fixtures.callB :: [])%list) as H1
    by (vm_compute; reflexivity).
  split; [exact H1|].
  refine (proj1 (Run_failure_restores_nothing evalBasicBlockSpec 3 Fixtures.progFails
            false [Fixtures.callA] Fixtures.callB []
            (erasedFor Fixtures.callA
               (addDirty Fixtures.x (startEval Fixtures.progFails false)))
            _ None unevaluable H1 _ eq_refl _ _)).
  - vm_compute. reflexivity.
  - vm_compute. reflexivity.
  - discriminate.
Defined.

(** C1 fails on the code: in [progFails] the init [b.init] makes [y] dirty
    and then fails. After [Run] has returned the error, the entry block of
    the aggregator has neither of the two calls, where it had the call of
    [b.init] when the evaluation of [b.init] began, and [y] is dirty, where
    only [x] was. *)
Lemma Run_failure_not_rolled_back :
  afterInits evalBasicBlockSpec 3 [Fixtures.callA] (startEval Fixtures.progFails false)
  = Some (erasedFor Fixtures.callA
            (addDirty Fixtures.x (startEval Fixtures.progFails false))) ∧
  llvm.Instructions
    (Mod (erasedFor Fixtures.callA
            (addDirty Fixtures.x (startEval Fixtures.progFails false))))
    (Fixtures.bbOf Fixtures.initAll)
  = [dummyOf Fixtures.progFails; Fixtures.callB; Fixtures.retI 42] ∧
  fst (snd (Run evalBasicBlockSpec 3 Fixtures.progFails false))
  = Done (Some unevaluable) ∧
  llvm.Instructions (Mod (snd (snd (Run evalBasicBlockSpec 3 Fixtures.progFails false))))
    (Fixtures.bbOf Fixtures.initAll)
  = [dummyOf Fixtures.progFails; Fixtures.retI 42] ∧
  dirtyGlobals (snd (snd (Run evalBasicBlockSpec 3 Fixtures.progFails false)))
  ≠ dirtyGlobals (erasedFor Fixtures.callA
                    (addDirty Fixtures.x (startEval Fixtures.progFails false))).
Proof.
  repeat split; try (vm_compute; reflexivity).
  intros H.
  assert (Fixtures.y ∈ dirtyGlobals
            (snd (snd (Run evalBasicBlockSpec 3 Fixtures.progFails false)))) as Hy
    by (vm_compute; reflexivity).
  rewrite H in Hy. vm_compute in Hy. discriminate Hy.
Qed.

(** C2. The calls [Run] works on are the instructions of the aggregator's
    entry block in front of its return, in the order of the block. [Run]
    takes them in that order, and for each first erases the call and then
    evaluates the callee: its steps are [Erased c; Evaluated f ..] for the
    first, then for the second, and so on, up to the call at which it stops.
    The evaluation for a call starts from the [Eval] that the evaluations for
    the calls before it have left, with the call erased from its block. *)
Theorem Run_in_instruction_order (ev : evalBasicBlock_t) (fuel : nat)
    (m : llvm.Module_) (debug : bool) (calls : list llvm.Value) :
  initCallsOf m = Some calls →
  (∃ bb insts, entryInstructions m = Some (bb, insts) ∧ calls = beforeReturn insts) ∧
  (∃ k, fst (Run ev fuel m debug) = flat_map stepsOf (take k calls)) ∧
  (∀ pre call post e1,
     calls = (pre ++ call :: post)%list →
     afterInits ev fuel pre (startEval m debug) = Some e1 →
     acceptedInit call = true →
     ∃ fn tail,
       llvm.CalledValue call = Some fn ∧
       fst (Run ev fuel m debug)
       = (flat_map stepsOf pre
          ++ Erased call :: Evaluated fn initParams (pkgNameOf fn) :: tail)%list ∧
       (∀ bb, call ∉ llvm.Instructions (Mod (erasedFor call e1)) bb) ∧
       (∀ out e2,
          Function ev fuel fn initParams (pkgNameOf fn) (erasedFor call e1)
          = (Done (out, None), e2) →
          Run ev fuel m debug =
            ((flat_map stepsOf (pre ++ [call]) ++ fst (runInitCalls ev fuel post e2))%list,
             snd (runInitCalls ev fuel post e2)))).
Proof.
  intros Hc. split; [|split].
  - unfold initCallsOf in Hc.
    destruct (entryInstructions m) as [[bb insts]|]; simpl in Hc; [|discriminate].
    destruct (forallb _ _); [|discriminate]. injection Hc as <-. eauto.
  - rewrite (Run_initCalls ev fuel m debug calls Hc). apply runInitCalls_log.
  - intros pre call post e1 -> Hpre Hacc.
    rewrite (Run_initCalls ev fuel m debug _ Hc).
    rewrite (runInitCalls_app ev fuel pre (call :: post) _ e1 Hpre).
    rewrite (runInitCalls_cons ev fuel call post e1 Hacc).
    unfold acceptedInit in Hacc.
    destruct (llvm.CalledValue call) as [fn|] eqn:Hcv; [|discriminate].
    assert (stepsOf call = [Erased call; Evaluated fn initParams (pkgNameOf fn)])
      as Hsteps by (unfold stepsOf; rewrite Hcv; reflexivity).
    rewrite flat_map_app. cbn [flat_map]. rewrite app_nil_r, Hsteps.
    unfold evalInit. rewrite Hcv.
    exists fn.
    destruct (Function ev fuel fn initParams (pkgNameOf fn) (erasedFor call e1))
      as [[[out [[|msg]|]]|msg|] e2] eqn:Hf; cbn [fst snd];
      [exists []|exists []|exists (fst (runInitCalls ev fuel post e2))|exists []|exists []];
      (split; [reflexivity|]); (split; [reflexivity|]);
      (split; [apply erasedFor_gone|]); intros out' e2' [=]; subst.
    rewrite <- app_assoc. reflexivity.
Qed.

Lemma Run_in_instruction_order_witness :
  initCallsOf Fixtures.progFails = Some [Fixtures.callA; Fixtures.callB] ∧
  ∃ k, fst (Run evalBasicBlockSpec 3 Fixtures.progFails false)
       = flat_map stepsOf (take k [Fixtures.callA; Fixtures.callB]).
Proof.
  assert (initCallsOf Fixtures.progFails = Some [Fixtures.callA; Fixtures.callB]) as H1
    by (vm_compute; reflexivity).
  split; [exact H1|].
  exact (proj1 (proj2 (Run_in_instruction_order evalBasicBlockSpec 3
                         Fixtures.progFails false _ H1))).
Defined.

Section driver_events.

Variable ev : evalBasicBlock_t.

Lemma substring_whole (s : string) : String.substring 0 (String.length s) s = s.
Proof. induction s as [|c s IH]; simpl; [|rewrite IH]; reflexivity. Qed.

Lemma substring_split (n : nat) (s : string) :
  (n ≤ String.length s)%nat →
  String.append (String.substring 0 n s)
                (String.substring n (String.length s - n) s) = s.
Proof.
  revert s. induction n as [|n IH]; intros s Hn.
  - rewrite Nat.sub_0_r, substring_whole. destruct s; reflexivity.
  - destruct s as [|c s]; simpl in Hn; [lia|].
    change (String c (String.append (String.substring 0 n s)
                        (String.substring n (String.length s - n) s)) = String c s).
    rewrite IH by lia. reflexivity.
Qed.

(** Cutting the suffix off and putting it back. *)
Lemma HasSuffix_cut (s suffix : string) :
  strings.HasSuffix s suffix = true →
  String.append
    (String.substring 0 (String.length s - String.length suffix) s) suffix = s.
Proof.
  unfold strings.HasSuffix. rewrite andb_true_iff, Nat.leb_le, String.eqb_eq.
  intros [Hlen Hsub].
  pose proof (substring_split (String.length s - String.length suffix) s) as H.
  replace (String.length s - (String.length s - String.length suffix))%nat
    with (String.length suffix) in H by lia.
  rewrite Hsub in H. apply H. lia.
Qed.

Lemma stepsOf_evaluated (call fn : llvm.Value) (params : list Value) (pkg : string) :
  acceptedInit call = true →
  Evaluated fn params pkg ∈ stepsOf call →
  params = initParams ∧ pkg = pkgNameOf fn ∧
  strings.HasSuffix (llvm.Name fn) ".init" = true.
Proof.
  unfold acceptedInit, stepsOf. destruct (llvm.CalledValue call) as [f|]; [|discriminate].
  intros Hacc Hin. apply elem_of_cons in Hin as [Hin|Hin]; [discriminate|].
  apply elem_of_cons in Hin as [Hin|Hin]; [|apply elem_of_nil in Hin; contradiction].
  injection Hin as -> -> ->. auto.
Qed.

(** Every evaluation the loop asks for is of a callee named [*.init], with
    the two undef parameters and the package name cut from the name. *)
Lemma runInitCalls_evaluated (fuel : nat) (calls : list llvm.Value) (e : Eval_)
    (fn : llvm.Value) (params : list Value) (pkg : string) :
  Evaluated fn params pkg ∈ fst (runInitCalls ev fuel calls e) →
  params = initParams ∧ pkg = pkgNameOf fn ∧
  strings.HasSuffix (llvm.Name fn) ".init" = true.
Proof.
  revert e. induction calls as [|call rest IH]; intros e.
  - simpl. intros H. apply elem_of_nil in H. contradiction.
  - destruct (acceptedInit call) eqn:Hacc.
    + rewrite (runInitCalls_cons ev fuel call rest e Hacc).
      destruct (evalInit ev fuel call e) as [[[r [[|msg]|]]|msg|] e2]; cbn [fst];
        try apply (stepsOf_evaluated call fn params pkg Hacc).
      intros [H|H]%elem_of_app.
      * apply (stepsOf_evaluated call fn params pkg Hacc H).
      * apply (IH e2 H).
    + unfold acceptedInit in Hacc. simpl.
      destruct (llvm.CalledValue call); simpl; [rewrite Hacc; simpl|];
        intros H; apply elem_of_nil in H; contradiction.
Qed.

(** [Run] either takes no step or is its second loop. *)
Lemma Run_cases (fuel : nat) (m : llvm.Module_) (debug : bool) :
  fst (Run ev fuel m debug) = [] ∨
  ∃ calls, Run ev fuel m debug = runInitCalls ev fuel calls (startEval m debug).
Proof.
  destruct (entryInstructions m) as [[bb insts]|] eqn:He.
  - rewrite (Run_start ev fuel m debug bb insts He).
    destruct (forallb _ _); [right; eauto|left; reflexivity].
  - left. unfold Run. unfold entryInstructions in He.
    destruct (llvm.NamedFunction m initAllName) as [f|] eqn:Hf; [|reflexivity].
    destruct (llvm.EntryBasicBlock m f) as [b|] eqn:Hb; [|reflexivity].
    unfold llvm.FirstInstruction.
    destruct (llvm.Instructions m b) eqn:Hi; [reflexivity|].
    try rewrite Hf in He. simpl in He. try rewrite Hb in He. simpl in He.
    try rewrite Hi in He. discriminate He.
Qed.

Lemma Run_evaluated (fuel : nat) (m : llvm.Module_) (debug : bool)
    (fn : llvm.Value) (params : list Value) (pkg : string) :
  Evaluated fn params pkg ∈ fst (Run ev fuel m debug) →
  params = initParams ∧ pkg = pkgNameOf fn ∧
  strings.HasSuffix (llvm.Name fn) ".init" = true.
Proof.
  destruct (Run_cases fuel m debug) as [->|[calls ->]].
  - intros H. apply elem_of_nil in H. contradiction.
  - apply runInitCalls_evaluated.
Qed.

Lemma forallb_directCall_elem (insts : list llvm.Value) (inst : llvm.Value) :
  inst ∈ insts → directCall inst = false → forallb directCall insts = false.
Proof.
  intros Hin Hd. destruct (forallb directCall insts) eqn:E; [|reflexivity].
  rewrite forallb_forall in E. rewrite <- Hd. symmetry. apply E, list_elem_of_In, Hin.
Qed.

End driver_events.

(** C5, as the code has it. An instruction in front of the return of the
    aggregator's entry block that is not a direct call makes [Run] return an
    error before it takes any step. A callee whose name does not end with
    [.init] makes [Run] return an error when the loop comes to its call:
    after the steps for the calls before it, if these evaluate without error.
    Every evaluation [Run] asks for is of a callee named [*.init], and the
    package name it passes is that name without its last five characters. *)
Theorem Run_checks_the_aggregator (ev : evalBasicBlock_t) (fuel : nat)
    (m : llvm.Module_) (debug : bool) :
  (∀ bb insts inst,
     entryInstructions m = Some (bb, insts) →
     inst ∈ beforeReturn insts → directCall inst = false →
     Run ev fuel m debug = ([], (Done (Some notDirectCalls), startEval m debug))) ∧
  (∀ pre call post e1,
     initCallsOf m = Some (pre ++ call :: post)%list →
     afterInits ev fuel pre (startEval m debug) = Some e1 →
     acceptedInit call = false →
     Run ev fuel m debug = (flat_map stepsOf pre, (Done (Some notInitCalls), e1))) ∧
  (∀ fn params pkg,
     Evaluated fn params pkg ∈ fst (Run ev fuel m debug) →
     strings.HasSuffix (llvm.Name fn) ".init" = true ∧
     pkg = String.substring 0 (String.length (llvm.Name fn) - 5) (llvm.Name fn) ∧
     String.append pkg ".init" = llvm.Name fn).
Proof.
  split; [|split].
  - intros bb insts inst He Hin Hd.
    rewrite (Run_start ev fuel m debug bb insts He).
    rewrite (forallb_directCall_elem _ inst Hin Hd). reflexivity.
  - intros pre call post e1 Hc Hpre Hacc.
    assert (directCall call = true) as Hd.
    { unfold initCallsOf in Hc.
      destruct (entryInstructions m) as [[bb insts]|]; simpl in Hc; [|discriminate].
      destruct (forallb directCall (beforeReturn insts)) eqn:E; [|discriminate].
      injection Hc as Hc. rewrite forallb_forall in E. apply E. rewrite Hc.
      apply in_or_app. right. left. reflexivity. }
    rewrite (Run_initCalls ev fuel m debug _ Hc).
    rewrite (runInitCalls_app ev fuel pre (call :: post) _ e1 Hpre).
    rewrite (runInitCalls_rejected ev fuel call post e1 Hd Hacc).
    simpl. rewrite app_nil_r. reflexivity.
  - intros fn params pkg Hin.
    destruct (Run_evaluated ev fuel m debug fn params pkg Hin) as (_ & -> & Hs).
    split; [exact Hs|]. split; [reflexivity|].
    apply (HasSuffix_cut (llvm.Name fn) ".init" Hs).
Qed.

Lemma Run_checks_the_aggregator_witness :
  Run evalBasicBlockSpec 3 Fixtures.progNotCall false
  = ([], (Done (Some notDirectCalls), startEval Fixtures.progNotCall false)) ∧
  Run evalBasicBlockSpec 3 Fixtures.progBadName false
  = (flat_map stepsOf [Fixtures.callA],
     (Done (Some notInitCalls),
      erasedFor Fixtures.callA (startEval Fixtures.progBadName false))).
Proof.
  split.
  - apply (proj1 (Run_checks_the_aggregator evalBasicBlockSpec 3 Fixtures.progNotCall
                    false)
             (Fixtures.bbOf Fixtures.initAll)
             [Fixtures.otherI 39; Fixtures.callA; Fixtures.retI 42]
             (Fixtures.otherI 39)).
    + vm_compute. reflexivity.
    + apply list_elem_of_here.
    + reflexivity.
  - apply (proj1 (proj2 (Run_checks_the_aggregator evalBasicBlockSpec 3
                           Fixtures.progBadName false))
             [Fixtures.callA] Fixtures.callStart []).
    + vm_compute. reflexivity.
    + vm_compute. reflexivity.
    + reflexivity.
Defined.

(** C5 fails on the code. In [progBadName] the second call of the aggregator
    is to [main.start]: [Run] returns the error, but only after it has erased
    the call of [a.init] and evaluated [a.init]. In [progUnreachableBadName]
    the evaluation of [a.init] ends in [ErrUnreachable], and [Run] returns
    nil: the name of the second callee is never looked at. *)
Lemma Run_names_checked_late :
  initCallsOf Fixtures.progBadName = Some [Fixtures.callA; Fixtures.callStart] ∧
  acceptedInit Fixtures.callStart = false ∧
  fst (snd (Run evalBasicBlockSpec 3 Fixtures.progBadName false))
  = Done (Some notInitCalls) ∧
  fst (Run evalBasicBlockSpec 3 Fixtures.progBadName false)
  = [Erased Fixtures.callA; Evaluated Fixtures.aInit initParams "a"] ∧
  initCallsOf Fixtures.progUnreachableBadName
  = Some [Fixtures.callA; Fixtures.callStart] ∧
  fst (snd (Run evalBasicBlockSpec 3 Fixtures.progUnreachableBadName false))
  = Done None.
Proof. repeat split; vm_compute; reflexivity. Qed.

(** C6, as the code has it. [Run] is not idempotent. It puts a dummy alloca
    in front of the aggregator's entry block and nothing in [Run] takes it
    out again. When the module that a successful [Run] leaves still has that
    alloca in front of the return of the entry block, a second [Run] on this
    module puts one more dummy in front and returns the error for an
    instruction that is not a direct call, without taking a step. *)
Theorem Run_twice_is_an_error (ev : evalBasicBlock_t) (fuel fuel' : nat)
    (m : llvm.Module_) (debug debug' : bool) (log : list Event) (e : Eval_)
    (bb : llvm.Value) (insts : list llvm.Value) :
  Run ev fuel m debug = (log, (Done None, e)) →
  entryInstructions (Mod e) = Some (bb, insts) →
  dummyOf m ∈ beforeReturn insts →
  Run ev fuel' (Mod e) debug'
  = ([], (Done (Some notDirectCalls), startEval (Mod e) debug')) ∧
  llvm.Instructions (Mod e) bb = insts ∧
  llvm.Instructions (Mod (startEval (Mod e) debug')) bb = dummyOf (Mod e) :: insts ∧
  Mod (startEval (Mod e) debug') ≠ Mod e.
Proof.
  intros _ He Hd.
  assert (llvm.Instructions (Mod e) bb = insts) as Hi.
  { destruct (entryInstructions_inv (Mod e) bb insts He) as (? & ? & ? & _ & _ & Hi & _).
    exact Hi. }
  pose proof (startEval_instructions (Mod e) debug' bb insts He) as Hs.
  split; [|split; [exact Hi|split; [exact Hs|]]].
  - rewrite (Run_start ev fuel' (Mod e) debug' bb insts He).
    rewrite (forallb_directCall_elem _ (dummyOf m) Hd); reflexivity.
  - intros Heq. rewrite Heq, Hi in Hs.
    apply (f_equal (@List.length _)) in Hs. simpl in Hs. lia.
Qed.

Lemma Run_twice_is_an_error_witness :
  Run evalBasicBlockSpec 3 Fixtures.progUnreachable false
  = ([Erased Fixtures.callA; Evaluated Fixtures.aInit initParams "a"],
     (Done None, erasedFor Fixtures.callA (startEval Fixtures.progUnreachable false))) ∧
  Run evalBasicBlockSpec 3
      (Mod (erasedFor Fixtures.callA (startEval Fixtures.progUnreachable false))) true
  = ([], (Done (Some notDirectCalls),
          startEval (Mod (erasedFor Fixtures.callA
                            (startEval Fixtures.progUnreachable false))) true)).
Proof.
  assert (Run evalBasicBlockSpec 3 Fixtures.progUnreachable false
          = ([Erased Fixtures.callA; Evaluated Fixtures.aInit initParams "a"],
             (Done None,
              erasedFor Fixtures.callA (startEval Fixtures.progUnreachable false))))
    as H1 by (vm_compute; reflexivity).
  split; [exact H1|].
  refine (proj1 (Run_twice_is_an_error evalBasicBlockSpec 3 3 Fixtures.progUnreachable
                   false true _ _ (Fixtures.bbOf Fixtures.initAll)
                   [dummyOf Fixtures.progUnreachable; Fixtures.callB; Fixtures.retI 42]
                   H1 _ _)).
  - vm_compute. reflexivity.
  - apply list_elem_of_here.
Defined.

(** C6 fails on the code: on the aggregator without init calls [Run]
    succeeds; run again on the module it leaves, [Run] returns an error, and
    the entry block has a second dummy. *)
Lemma Run_not_idempotent :
  fst (snd (Run evalBasicBlockSpec 3 Fixtures.progNoInits false)) = Done None ∧
  llvm.Instructions
    (Mod (snd (snd (Run evalBasicBlockSpec 3 Fixtures.progNoInits false))))
    (Fixtures.bbOf Fixtures.initAll)
  = [llvm.mkValue 111 llvm.AllocaInst "dummy" []; Fixtures.retI 42] ∧
  fst (snd (Run evalBasicBlockSpec 3
              (Mod (snd (snd (Run evalBasicBlockSpec 3 Fixtures.progNoInits false))))
              false))
  = Done (Some notDirectCalls) ∧
  llvm.Instructions
    (Mod (snd (snd (Run evalBasicBlockSpec 3
       (Mod (snd (snd (Run evalBasicBlockSpec 3 Fixtures.progNoInits false)))) false))))
    (Fixtures.bbOf Fixtures.initAll)
  = [llvm.mkValue 112 llvm.AllocaInst "dummy" [];
     llvm.mkValue 111 llvm.AllocaInst "dummy" []; Fixtures.retI 42].
Proof. repeat split; vm_compute; reflexivity. Qed.

Section function_params.

Variable ev : evalBasicBlock_t.

Lemma seedLocals_short (i : nat) (fnParams : list llvm.Value) (params : list Value)
    (locals : gmap llvm.Value Value) :
  (i ≤ List.length params)%nat →
  (List.length params < i + List.length fnParams)%nat →
  seedLocals i fnParams params locals = None.
Proof.
  revert i locals. induction fnParams as [|param rest IH]; intros i locals Hi Hlt;
    simpl in *; [lia|].
  destruct (params !! i) as [p|] eqn:Hp; [|reflexivity].
  apply IH; [|lia]. apply lookup_lt_Some in Hp. lia.
Qed.

Lemma function_short_params (fuel : nat) (fn : llvm.Value) (params : list Value)
    (pkgName indent : string) (e : Eval_) :
  (List.length params < List.length (llvm.Params (Mod e) fn))%nat →
  function ev fuel fn params pkgName indent e = (Panic indexOutOfRange, e).
Proof.
  intros Hlt. unfold function, functionFrom.
  rewrite seedLocals_short by lia. reflexivity.
Qed.

(** The loop that seeds the locals, when [params] is long enough: the
    parameter at position [j] gets [params[i + j]]; of equal parameters the
    last one decides; nothing else is bound. *)
Lemma seedLocals_by_position (params : list Value) (fnParams : list llvm.Value) :
  ∀ (i : nat) (locals0 : gmap llvm.Value Value),
    (i + List.length fnParams ≤ List.length params)%nat →
    ∃ locals,
      seedLocals i fnParams params locals0 = Some locals ∧
      (∀ p, p ∉ fnParams → locals !! p = locals0 !! p) ∧
      (∀ j p, fnParams !! j = Some p →
              (∀ j', (j < j')%nat → fnParams !! j' ≠ Some p) →
              locals !! p = params !! (i + j)%nat) ∧
      (∀ p, p ∈ fnParams →
            ∃ j, fnParams !! j = Some p ∧ locals !! p = params !! (i + j)%nat).
Proof.
  induction fnParams as [|f rest IH]; intros i locals0 Hlen.
  - exists locals0. split; [reflexivity|]. split; [auto|]. split.
    + intros j p Hj. rewrite lookup_nil in Hj. discriminate.
    + intros p Hp. apply elem_of_nil in Hp. contradiction.
  - simpl in Hlen. cbn [seedLocals].
    destruct (params !! i) as [x|] eqn:Hx;
      [|apply lookup_ge_None in Hx; lia].
    destruct (IH (S i) (<[f := x]> locals0)) as (locals & Hs & Hout & Hlast & Hin);
      [lia|].
    exists locals. split; [exact Hs|].
    assert (f ∉ rest → locals !! f = params !! (i + 0)%nat) as Hf.
    { intros Hnf. rewrite (Hout f Hnf), lookup_insert_eq, Nat.add_0_r, Hx.
      reflexivity. }
    split; [|split].
    + intros p Hp. apply not_elem_of_cons in Hp as [Hne Hp].
      rewrite (Hout p Hp). apply lookup_insert_ne. congruence.
    + intros [|j] p Hj Hl.
      * simpl in Hj. injection Hj as ->. apply Hf.
        intros [j' Hj']%list_elem_of_lookup. apply (Hl (S j')); [lia|exact Hj'].
      * simpl in Hj. replace (i + S j)%nat with (S i + j)%nat by lia.
        apply (Hlast j p Hj). intros j' Hlt. apply (Hl (S j')). lia.
    + intros p Hp. destruct (decide (p ∈ rest)) as [Hr|Hr].
      * destruct (Hin p Hr) as (j & Hj & Hl). exists (S j).
        split; [exact Hj|]. replace (i + S j)%nat with (S i + j)%nat by lia. exact Hl.
      * apply elem_of_cons in Hp as [->|Hp]; [|contradiction].
        exists 0%nat. split; [reflexivity|]. apply Hf, Hr.
Qed.

End function_params.

(** C10. [function] takes [params[i]] for the i-th parameter of the callee
    without looking at the length of [params]: when the callee has more
    parameters than [params] has values, the call panics with an index out of
    range, whatever the evaluator and before any block is evaluated. The
    driver passes the same two values, undef of type [i8*], to every init it
    evaluates; so an init with more than two parameters makes [Run] panic.
    When [params] is long enough, the loop over the blocks starts with the
    frame whose locals hold [params[i]] for the i-th parameter of the callee
    (of equal parameters the last one decides), and nothing else; what [Run]
    does for a call is decided by [Function] on the callee and these two
    undef values, and an init with at most two parameters runs with each of
    them bound to undef. *)
Theorem function_does_not_check_params (ev : evalBasicBlock_t) (fuel : nat) :
  (∀ fn params pkgName indent e,
     (List.length params < List.length (llvm.Params (Mod e) fn))%nat →
     function ev fuel fn params pkgName indent e = (Panic indexOutOfRange, e)) ∧
  (∀ m debug fn params pkgName,
     Evaluated fn params pkgName ∈ fst (Run ev fuel m debug) →
     params = [LocalValue (llvm.Undef "i8*"); LocalValue (llvm.Undef "i8*")]) ∧
  (∀ call rest fn e,
     llvm.CalledValue call = Some fn → acceptedInit call = true →
     (2 < List.length (llvm.Params (Mod e) fn))%nat →
     runInitCalls ev fuel (call :: rest) e
     = (stepsOf call, (Panic indexOutOfRange, erasedFor call e))) ∧
  (∀ fn params pkgName indent e,
     (List.length (llvm.Params (Mod e) fn) ≤ List.length params)%nat →
     ∃ locals,
       function ev fuel fn params pkgName indent e
       = blockLoop ev fuel (mkFrame fn pkgName locals)
                   (llvm.EntryBasicBlock (Mod e) fn) None indent e ∧
       (∀ p, p ∉ llvm.Params (Mod e) fn → locals !! p = None) ∧
       (∀ i p, llvm.Params (Mod e) fn !! i = Some p →
               (∀ j, (i < j)%nat → llvm.Params (Mod e) fn !! j ≠ Some p) →
               locals !! p = params !! i)) ∧
  (∀ call rest fn e,
     llvm.CalledValue call = Some fn → acceptedInit call = true →
     runInitCalls ev fuel (call :: rest) e =
       match
         Function ev fuel fn
           [LocalValue (llvm.Undef "i8*"); LocalValue (llvm.Undef "i8*")]
           (pkgNameOf fn) (erasedFor call e)
       with
       | (Done (_, None), e2) =>
           ((stepsOf call ++ fst (runInitCalls ev fuel rest e2))%list,
            snd (runInitCalls ev fuel rest e2))
       | (Done (_, Some ErrUnreachable), e2) => (stepsOf call, (Done None, e2))
       | (Done (_, Some err), e2) => (stepsOf call, (Done (Some err), e2))
       | (Panic msg, e2) => (stepsOf call, (Panic msg, e2))
       | (OutOfFuel, e2) => (stepsOf call, (OutOfFuel, e2))
       end) ∧
  (∀ fn pkgName e,
     (List.length (llvm.Params (Mod e) fn) ≤ 2)%nat →
     ∃ locals,
       Function ev fuel fn
         [LocalValue (llvm.Undef "i8*"); LocalValue (llvm.Undef "i8*")] pkgName e
       = blockLoop ev fuel (mkFrame fn pkgName locals)
                   (llvm.EntryBasicBlock (Mod e) fn) None "" e ∧
       ∀ p, locals !! p =
            if decide (p ∈ llvm.Params (Mod e) fn)
            then Some (LocalValue (llvm.Undef "i8*")) else None).
Proof.
  split; [|split; [|split; [|split; [|split]]]].
  - intros. apply function_short_params. assumption.
  - intros m debug fn params pkgName Hin.
    destruct (Run_evaluated ev fuel m debug fn params pkgName Hin) as (-> & _).
    reflexivity.
  - intros call rest fn e Hcv Hacc Hlt.
    rewrite (runInitCalls_cons ev fuel call rest e Hacc).
    unfold evalInit, Function. rewrite Hcv.
    rewrite function_short_params; [reflexivity|]. simpl. exact Hlt.
  - intros fn params pkgName indent e Hlen.
    destruct (seedLocals_by_position params (llvm.Params (Mod e) fn) 0 ∅ Hlen)
      as (locals & Hs & Hout & Hlast & _).
    exists locals. split; [|split].
    + unfold function, functionFrom. rewrite Hs. reflexivity.
    + intros p Hp. rewrite (Hout p Hp). apply lookup_empty.
    + intros i p Hi Hl. apply (Hlast i p Hi Hl).
  - intros call rest fn e Hcv Hacc.
    rewrite (runInitCalls_cons ev fuel call rest e Hacc).
    unfold evalInit. rewrite Hcv. reflexivity.
  - intros fn pkgName e Hlen.
    destruct (seedLocals_by_position
                [LocalValue (llvm.Undef "i8*"); LocalValue (llvm.Undef "i8*")]
                (llvm.Params (Mod e) fn) 0 ∅ Hlen)
      as (locals & Hs & Hout & _ & Hin).
    exists locals. split.
    + unfold Function, function, functionFrom. rewrite Hs. reflexivity.
    + intros p. destruct (decide (p ∈ llvm.Params (Mod e) fn)) as [Hp|Hp].
      * destruct (Hin p Hp) as (j & Hj & ->).
        apply lookup_lt_Some in Hj.
        destruct j as [|[|j]]; [reflexivity|reflexivity|lia].
      * rewrite (Hout p Hp). apply lookup_empty.
Qed.

Lemma function_does_not_check_params_witness :
  (2 < List.length (llvm.Params Fixtures.progArity Fixtures.aInit))%nat ∧
  snd (Run evalBasicBlockSpec 3 Fixtures.progArity false)
  = (Panic indexOutOfRange,
     erasedFor Fixtures.callA (startEval Fixtures.progArity false)) ∧
  ∃ locals,
    Function evalBasicBlockSpec 3 Fixtures.aInit
      [LocalValue (llvm.Undef "i8*"); LocalValue (llvm.Undef "i8*")] "a"
      (erasedFor Fixtures.callA (startEval MoreFixtures.progTwoParams false))
    = blockLoop evalBasicBlockSpec 3 (mkFrame Fixtures.aInit "a" locals)
        (Some (Fixtures.bbOf Fixtures.aInit)) None ""
        (erasedFor Fixtures.callA (startEval MoreFixtures.progTwoParams false)) ∧
    locals !! MoreFixtures.p1 = Some (LocalValue (llvm.Undef "i8*")).
Proof.
  assert (2 < List.length (llvm.Params Fixtures.progArity Fixtures.aInit))%nat as Hlt
    by (vm_compute; lia).
  split; [exact Hlt|]. split.
  - rewrite (Run_initCalls evalBasicBlockSpec 3 Fixtures.progArity false
               [Fixtures.callA]) by (vm_compute; reflexivity).
    rewrite (proj1 (proj2 (proj2 (function_does_not_check_params evalBasicBlockSpec 3)))
               Fixtures.callA [] Fixtures.aInit (startEval Fixtures.progArity false)
               eq_refl eq_refl).
    + reflexivity.
    + vm_compute. lia.
  - destruct (proj2 (proj2 (proj2 (proj2 (proj2
                (function_does_not_check_params evalBasicBlockSpec 3)))))
              Fixtures.aInit "a"
              (erasedFor Fixtures.callA (startEval MoreFixtures.progTwoParams false)))
      as (locals & Hf & Hl).
    + vm_compute. lia.
    + exists locals. split; [exact Hf|]. rewrite Hl.
      apply decide_True. vm_compute.
      apply list_elem_of_further, list_elem_of_here.
Defined.

(** *** The depth of the evaluation *)
Section function_depth.

Variable ev : evalBasicBlock_t.

(** What the loop of [function] returns is what the evaluation of some
    block returned, with no outgoing block. *)
Lemma blockLoop_returns (fuel : nat) (fr : frame) (bb lastBB : llvm.BasicBlock)
    (indent : string) (e e' : Eval_) (r : option Value) (err : option error) :
  blockLoop ev fuel fr bb lastBB indent e = (Done (r, err), e') →
  ∃ n fr0 fr1 bb0 lastBB0 e0,
    (n < fuel)%nat ∧
    ev (function ev n) fr0 bb0 lastBB0 indent e0
    = (Done (fr1, (r, None, err)), e').
Proof.
  revert fr bb lastBB e. induction fuel as [|fuel IH]; intros fr bb lastBB e; simpl.
  - discriminate.
  - unfold bind.
    destruct (ev (functionFrom (blockLoop ev fuel)) fr bb lastBB indent e)
      as [[[fr1 [[retval outgoing] err0]]|msg|] e1] eqn:Hev; try discriminate.
    destruct outgoing as [outgoing|].
    + destruct (1 <? List.length outgoing)%nat; [discriminate|].
      destruct outgoing as [|next rest]; [discriminate|].
      destruct (negb (llvm.IsABasicBlock next)); [discriminate|].
      intros H. destruct (IH _ _ _ _ H) as (n & fr0 & fr2 & bb0 & lastBB0 & e0 & Hn & H0).
      exists n, fr0, fr2, bb0, lastBB0, e0. split; [lia|exact H0].
    + intros [= -> -> ->]. exists fuel, fr, fr1, bb, lastBB, e.
      split; [lia|exact Hev].
Qed.

Lemma function_returns (fuel : nat) (fn : llvm.Value) (params : list Value)
    (pkgName indent : string) (e e' : Eval_) (r : option Value) (err : option error) :
  function ev fuel fn params pkgName indent e = (Done (r, err), e') →
  ∃ n fr0 fr1 bb0 lastBB0 e0,
    (n < fuel)%nat ∧
    ev (function ev n) fr0 bb0 lastBB0 indent e0
    = (Done (fr1, (r, None, err)), e').
Proof.
  unfold function at 1, functionFrom.
  destruct (seedLocals 0 _ params ∅); [|discriminate].
  apply blockLoop_returns.
Qed.

End function_depth.












(** * Further properties *)

(** ** [markDirty] as an operation on the dirty-set *)
Section markDirty_algebra.

Implicit Types (e : Eval_) (v w g : llvm.Value).

Lemma markDirty_markedGlobal e v :
  markDirty v e =
    match markedGlobal v with
    | Some g => markDirty g e
    | None =>
        if llvm.IsConstant v then (Done tt, e)
        else if llvm.IsAGetElementPtrInst v then (Panic "interp: todo: GEP", e)
        else (Done tt, e)
    end.
Proof.
  unfold markedGlobal. destruct v as [h k n ops]. cbn [markDirty llvm.operands].
  destruct (llvm.IsAGlobalVariable (llvm.mkValue h k n ops)) eqn:Hv.
  - cbn [markDirty]. rewrite Hv. reflexivity.
  - destruct (llvm.IsConstant _); [|reflexivity].
    destruct ops as [|op0 [|op1 ops]]; try reflexivity.
    destruct (llvm.IsAGlobalVariable op0); reflexivity.
Qed.

Lemma markedGlobal_global v g :
  markedGlobal v = Some g → llvm.IsAGlobalVariable g = true.
Proof.
  unfold markedGlobal. destruct (llvm.IsAGlobalVariable v) eqn:Hv.
  - intros [= <-]. exact Hv.
  - destruct (llvm.IsConstant v); [|discriminate].
    destruct (llvm.operands v) as [|op0 [|op1 ops]]; try discriminate.
    destruct (llvm.IsAGlobalVariable op0) eqn:H0; [|discriminate].
    intros [= <-]. exact H0.
Qed.

(** The [Eval] after [markDirty], whether it returns or panics. *)
Lemma markDirty_state e v :
  snd (markDirty v e) =
    match dirtied v with
    | Some g => if decide (g ∈ dirtyGlobals e) then e else addDirty g e
    | None => e
    end.
Proof.
  rewrite markDirty_markedGlobal. unfold dirtied.
  destruct (markedGlobal v) as [g|] eqn:Hg.
  - rewrite (markDirty_global e g (markedGlobal_global v g Hg)).
    destruct (llvm.IsGlobalConstant g); [reflexivity|].
    destruct (decide (g ∈ dirtyGlobals e)); reflexivity.
  - destruct (llvm.IsConstant v); [reflexivity|].
    destruct (llvm.IsAGetElementPtrInst v); reflexivity.
Qed.


Lemma dirtied_nonconstant_global v g :
  dirtied v = Some g →
  llvm.IsAGlobalVariable g = true ∧ llvm.IsGlobalConstant g = false ∧
  (v = g ∨ constantOver v g).
Proof.
  unfold dirtied. destruct (markedGlobal v) as [g'|] eqn:Hm; [|discriminate].
  destruct (llvm.IsGlobalConstant g') eqn:Hc; [discriminate|]. intros [= <-].
  split; [exact (markedGlobal_global v g' Hm)|]. split; [exact Hc|].
  unfold markedGlobal in Hm. destruct (llvm.IsAGlobalVariable v) eqn:Hv.
  - left. congruence.
  - right. destruct (llvm.IsConstant v) eqn:Hk; [|discriminate].
    unfold constantOver, llvm.OperandsCount, llvm.Operand.
    destruct (llvm.operands v) as [|op0 [|op1 ops]]; try discriminate.
    destruct (llvm.IsAGlobalVariable op0) eqn:H0; [|discriminate].
    injection Hm as <-. simpl. repeat split; auto. lia.
Qed.

Lemma dirtied_of_global v g :
  llvm.IsAGlobalVariable g = true → llvm.IsGlobalConstant g = false →
  v = g ∨ constantOver v g → dirtied v = Some g.
Proof.
  intros Hg Hc [->|(Hv & Hk & Hn & Hop & _)]; unfold dirtied, markedGlobal.
  - rewrite Hg, Hc. reflexivity.
  - rewrite Hv, Hk. unfold llvm.OperandsCount, llvm.Operand in *.
    destruct (llvm.operands v) as [|op0 [|op1 ops]]; simpl in Hn; try lia.
    simpl in Hop. injection Hop as ->. rewrite Hg, Hc. reflexivity.
Qed.

End markDirty_algebra.

(** X1. Marking a value dirty a second time changes nothing: the [Eval]
    after two calls of [markDirty] on the same value is the [Eval] after
    one. *)
Theorem markDirty_twice (e : Eval_) (v : llvm.Value) :
  snd (markDirty v (snd (markDirty v e))) = snd (markDirty v e).
Proof.
  rewrite !markDirty_state. destruct (dirtied v) as [g|]; [|reflexivity].
  destruct (decide (g ∈ dirtyGlobals e)) as [Hin|Hin].
  - rewrite decide_True by exact Hin. reflexivity.
  - rewrite decide_True; [reflexivity|]. simpl. set_solver.
Qed.


(** X3. [markDirty] writes the dirty-set and the cache only, and the two
    together: the module, the target data, the debug flag and the builder are
    as before; the dirty-set gains at most one global; when it gains one the
    cache is nil afterwards, and when it gains none the whole [Eval] is as
    before, the cache included. *)
Theorem markDirty_writes_set_and_cache (e : Eval_) (v : llvm.Value) :
  Mod (snd (markDirty v e)) = Mod e ∧
  TargetData (snd (markDirty v e)) = TargetData e ∧
  Debug (snd (markDirty v e)) = Debug e ∧
  builder (snd (markDirty v e)) = builder e ∧
  (size (dirtyGlobals (snd (markDirty v e))) ≤ S (size (dirtyGlobals e)))%nat ∧
  (dirtyGlobals (snd (markDirty v e)) ≠ dirtyGlobals e →
     sideEffectFuncs (snd (markDirty v e)) = None) ∧
  (dirtyGlobals (snd (markDirty v e)) = dirtyGlobals e → snd (markDirty v e) = e).
Proof.
  rewrite markDirty_state. destruct (dirtied v) as [g|].
  - destruct (decide (g ∈ dirtyGlobals e)) as [Hin|Hin].
    + repeat split; try reflexivity; [lia|congruence].
    + unfold addDirty. simpl. repeat split; try reflexivity.
      * rewrite size_union by set_solver. rewrite size_singleton. lia.
      * intros Heq. exfalso. apply Hin. rewrite <- Heq. set_solver.
  - repeat split; try reflexivity; [lia|congruence].
Qed.

(** X4. After [markDirty] on a global variable that is not a constant, or
    on a constant with at least two operands over it, that global is in the
    dirty-set, whether it was there before or not, and it is still there
    after [markDirty] on any other value. *)
Theorem markDirty_makes_dirty (e : Eval_) (v g w : llvm.Value) :
  llvm.IsAGlobalVariable g = true → llvm.IsGlobalConstant g = false →
  v = g ∨ constantOver v g →
  g ∈ dirtyGlobals (snd (markDirty v e)) ∧
  g ∈ dirtyGlobals (snd (markDirty w (snd (markDirty v e)))).
Proof.
  intros Hg Hc Hv.
  assert (g ∈ dirtyGlobals (snd (markDirty v e))) as Hin.
  { rewrite markDirty_state, (dirtied_of_global v g Hg Hc Hv).
    destruct (decide (g ∈ dirtyGlobals e)); [assumption|]. simpl. set_solver. }
  split; [exact Hin|].
  rewrite (markDirty_state _ w). destruct (dirtied w) as [h|]; [|exact Hin].
  destruct (decide (h ∈ _)); [exact Hin|]. simpl. set_solver.
Qed.

Lemma markDirty_makes_dirty_witness :
  Fixtures.x ∈ dirtyGlobals
    (snd (markDirty (Fixtures.otherI 60)
            (snd (markDirty (Fixtures.constGEP 50 Fixtures.x) Fixtures.evalWithCache)))).
Proof.
  apply (markDirty_makes_dirty Fixtures.evalWithCache (Fixtures.constGEP 50 Fixtures.x)
           Fixtures.x (Fixtures.otherI 60)).
  - reflexivity.
  - reflexivity.
  - right. unfold constantOver, llvm.OperandsCount. simpl.
    repeat split; try reflexivity. lia.
Defined.

(** ** The driver as a whole *)
Section driver_whole.

Variable ev : evalBasicBlock_t.

(** The three ways [Run] can go: a crash before the first loop, the error of
    the first loop, or the second loop over the init calls. *)
Lemma Run_outcomes (fuel : nat) (m : llvm.Module_) (debug : bool) :
  (∃ msg e, Run ev fuel m debug = ([], (Panic msg, e))) ∨
  Run ev fuel m debug = ([], (Done (Some notDirectCalls), startEval m debug)) ∨
  ∃ calls, initCallsOf m = Some calls ∧
           Run ev fuel m debug = runInitCalls ev fuel calls (startEval m debug).
Proof.
  destruct (entryInstructions m) as [[bb insts]|] eqn:He.
  - rewrite (Run_start ev fuel m debug bb insts He). unfold initCallsOf. rewrite He.
    simpl. destruct (forallb _ _); [right; right; eauto|right; left; reflexivity].
  - left. unfold Run. unfold entryInstructions in He.
    destruct (llvm.NamedFunction m initAllName) as [f|] eqn:Hf; [|eauto].
    destruct (llvm.EntryBasicBlock m f) as [b|] eqn:Hb; [|eauto].
    unfold llvm.FirstInstruction.
    destruct (llvm.Instructions m b) eqn:Hi; [simpl; eauto|].
    try rewrite Hf in He. simpl in He. try rewrite Hb in He. simpl in He.
    try rewrite Hi in He. discriminate He.
Qed.

Lemma runInitCalls_error (fuel : nat) (calls : list llvm.Value) (e : Eval_)
    (err : error) :
  fst (snd (runInitCalls ev fuel calls e)) = Done (Some err) →
  err ≠ ErrUnreachable ∧
  (err = notInitCalls ∨
   ∃ call e1 r,
     call ∈ calls ∧ acceptedInit call = true ∧
     evalInit ev fuel call e1
     = (Done (r, Some err), snd (snd (runInitCalls ev fuel calls e)))).
Proof.
  revert e. induction calls as [|call rest IH]; intros e.
  - simpl. discriminate.
  - destruct (acceptedInit call) eqn:Hacc.
    + rewrite (runInitCalls_cons ev fuel call rest e Hacc).
      destruct (evalInit ev fuel call e) as [[[r [[|msg]|]]|msg|] e2] eqn:Hev;
        cbn [fst snd]; try discriminate.
      * intros [= <-]. split; [discriminate|]. right.
        exists call, e, r. split; [apply list_elem_of_here|]. split; [exact Hacc|exact Hev].
      * intros H. destruct (IH e2 H) as (Hne & [->|(c & e1 & r' & Hin & Ha & Hc)]).
        -- split; [exact Hne|left; reflexivity].
        -- split; [exact Hne|]. right. exists c, e1, r'.
           split; [apply list_elem_of_further, Hin|]. split; [exact Ha|exact Hc].
    + unfold acceptedInit in Hacc. simpl.
      destruct (llvm.CalledValue call); [|simpl; discriminate].
      rewrite Hacc. simpl. intros [= <-]. split; [discriminate|left; reflexivity].
Qed.

Lemma runInitCalls_erased (fuel : nat) (calls : list llvm.Value) (e : Eval_)
    (c : llvm.Value) :
  Erased c ∈ fst (runInitCalls ev fuel calls e) →
  c ∈ calls ∧ acceptedInit c = true ∧
  ∃ fn, llvm.CalledValue c = Some fn ∧
        Evaluated fn initParams (pkgNameOf fn) ∈ fst (runInitCalls ev fuel calls e).
Proof.
  assert (Hstep : ∀ call, acceptedInit call = true → Erased c ∈ stepsOf call →
            c = call ∧ ∃ fn, llvm.CalledValue c = Some fn ∧
                             Evaluated fn initParams (pkgNameOf fn) ∈ stepsOf call).
  { intros call Hacc. unfold stepsOf, acceptedInit in *.
    destruct (llvm.CalledValue call) as [fn|] eqn:Hcv; [|discriminate].
    intros [[= ->]|Hin]%elem_of_cons.
    - split; [reflexivity|]. exists fn. split; [exact Hcv|].
      apply list_elem_of_further, list_elem_of_here.
    - apply elem_of_cons in Hin as [Hin|Hin]; [discriminate|].
      apply elem_of_nil in Hin. contradiction. }
  revert e. induction calls as [|call rest IH]; intros e.
  - simpl. intros H. apply elem_of_nil in H. contradiction.
  - destruct (acceptedInit call) eqn:Hacc.
    + rewrite (runInitCalls_cons ev fuel call rest e Hacc).
      assert (Hhere : Erased c ∈ stepsOf call →
                ∀ log, c ∈ call :: rest ∧ acceptedInit c = true ∧
                  ∃ fn, llvm.CalledValue c = Some fn ∧
                        Evaluated fn initParams (pkgNameOf fn) ∈ (stepsOf call ++ log)%list).
      { intros H log. destruct (Hstep call Hacc H) as (-> & fn & Hcv & Hin).
        split; [apply list_elem_of_here|]. split; [exact Hacc|].
        exists fn. split; [exact Hcv|]. apply elem_of_app. left. exact Hin. }
      destruct (evalInit ev fuel call e) as [[[r [[|msg]|]]|msg|] e2]; cbn [fst];
        try (intros H; specialize (Hhere H []); rewrite app_nil_r in Hhere;
             exact Hhere).
      intros [H|H]%elem_of_app; [apply (Hhere H)|].
      destruct (IH e2 H) as (Hin & Ha & fn & Hcv & Hev).
      split; [apply list_elem_of_further, Hin|]. split; [exact Ha|].
      exists fn. split; [exact Hcv|]. apply elem_of_app. right. exact Hev.
    + unfold acceptedInit in Hacc. simpl.
      destruct (llvm.CalledValue call); simpl; [rewrite Hacc; simpl|];
        intros H; apply elem_of_nil in H; contradiction.
Qed.

Lemma beforeReturn_elem (insts : list llvm.Value) (c : llvm.Value) :
  c ∈ beforeReturn insts → c ∈ insts ∧ llvm.IsAReturnInst c = false.
Proof.
  induction insts as [|inst rest IH]; simpl.
  - intros H. apply elem_of_nil in H. contradiction.
  - destruct (llvm.IsAReturnInst inst) eqn:Hr.
    + intros H. apply elem_of_nil in H. contradiction.
    + intros [->|H]%elem_of_cons.
      * split; [apply list_elem_of_here|exact Hr].
      * destruct (IH H) as [Hin Hc]. split; [apply list_elem_of_further, Hin|exact Hc].
Qed.

End driver_whole.

(** X5. When every init call of the aggregator is accepted and evaluates
    without an error, [Run] returns nil, its steps are those of all the calls
    in the order of the block, and the [Eval] it leaves is the one the last
    evaluation left. *)
Theorem Run_evaluates_every_init (ev : evalBasicBlock_t) (fuel : nat)
    (m : llvm.Module_) (debug : bool) (calls : list llvm.Value) (e : Eval_) :
  initCallsOf m = Some calls →
  afterInits ev fuel calls (startEval m debug) = Some e →
  Run ev fuel m debug = (flat_map stepsOf calls, (Done None, e)).
Proof.
  intros Hc Ha. rewrite (Run_initCalls ev fuel m debug calls Hc).
  rewrite <- (app_nil_r calls) at 1.
  rewrite (runInitCalls_app ev fuel calls [] _ e Ha). simpl.
  rewrite app_nil_r. reflexivity.
Qed.

Lemma Run_evaluates_every_init_witness :
  initCallsOf MoreFixtures.progBothReturn = Some [Fixtures.callA; Fixtures.callB] ∧
  Run evalBasicBlockSpec 3 MoreFixtures.progBothReturn false
  = (flat_map stepsOf [Fixtures.callA; Fixtures.callB],
     (Done None,
      erasedFor Fixtures.callB
        (addDirty Fixtures.y
           (erasedFor Fixtures.callA
              (addDirty Fixtures.x (startEval MoreFixtures.progBothReturn false)))))).
Proof.
  assert (initCallsOf MoreFixtures.progBothReturn
          = Some [Fixtures.callA; Fixtures.callB]) as H1 by (vm_compute; reflexivity).
  split; [exact H1|].
  apply (Run_evaluates_every_init evalBasicBlockSpec 3 MoreFixtures.progBothReturn
           false _ _ H1).
  vm_compute. reflexivity.
Defined.

(** X6. An error that [Run] returns is never [ErrUnreachable]. It is the
    error of the first loop (an instruction that is not a direct call), with
    no step taken; or the error of the second loop for a callee not named
    [*.init]; or the error with which the evaluation of an accepted init call
    ended, and then the [Eval] is the one that evaluation left. *)
Theorem Run_errors (ev : evalBasicBlock_t) (fuel : nat) (m : llvm.Module_)
    (debug : bool) (err : error) :
  fst (snd (Run ev fuel m debug)) = Done (Some err) →
  err ≠ ErrUnreachable ∧
  (err = notDirectCalls ∧ fst (Run ev fuel m debug) = [] ∨
   err = notInitCalls ∨
   ∃ call e1 r,
     acceptedInit call = true ∧
     evalInit ev fuel call e1 = (Done (r, Some err), snd (snd (Run ev fuel m debug)))).
Proof.
  destruct (Run_outcomes ev fuel m debug) as [(msg & e & ->)|[->|(calls & _ & ->)]].
  - simpl. discriminate.
  - simpl. intros [= <-]. split; [discriminate|]. left. split; reflexivity.
  - intros H. destruct (runInitCalls_error ev fuel calls _ err H)
      as (Hne & [->|(c & e1 & r & _ & Ha & Hc)]).
    + split; [exact Hne|]. right. left. reflexivity.
    + split; [exact Hne|]. right. right. eauto.
Qed.

Lemma Run_errors_witness :
  fst (snd (Run evalBasicBlockSpec 3 Fixtures.progFails false))
  = Done (Some unevaluable) ∧ unevaluable ≠ ErrUnreachable.
Proof.
  assert (fst (snd (Run evalBasicBlockSpec 3 Fixtures.progFails false))
          = Done (Some unevaluable)) as H by (vm_compute; reflexivity).
  split; [exact H|].
  exact (proj1 (Run_errors evalBasicBlockSpec 3 Fixtures.progFails false unevaluable H)).
Defined.

(** X7. [Run] erases nothing but init calls: an instruction it erases is one
    of the instructions in front of the return of the aggregator's entry
    block, a call whose callee is a function named [*.init]; it is neither the
    return nor the dummy; and with every call it erases [Run] asks for the
    evaluation of its callee. *)
Theorem Run_erases_init_calls_only (ev : evalBasicBlock_t) (fuel : nat)
    (m : llvm.Module_) (debug : bool) (c : llvm.Value) :
  Erased c ∈ fst (Run ev fuel m debug) →
  ∃ bb insts fn,
    entryInstructions m = Some (bb, insts) ∧
    c ∈ beforeReturn insts ∧ c ∈ llvm.Instructions m bb ∧
    llvm.IsACallInst c = true ∧ llvm.IsAReturnInst c = false ∧
    c ≠ dummyOf m ∧
    llvm.CalledValue c = Some fn ∧ llvm.IsAFunction fn = true ∧
    strings.HasSuffix (llvm.Name fn) ".init" = true ∧
    Evaluated fn initParams (pkgNameOf fn) ∈ fst (Run ev fuel m debug).
Proof.
  destruct (Run_outcomes ev fuel m debug) as [(msg & e & ->)|[->|(calls & Hc & ->)]];
    try (simpl; intros H; apply elem_of_nil in H; contradiction).
  intros H. destruct (runInitCalls_erased ev fuel calls _ c H)
    as (Hin & Hacc & fn & Hcv & Hev).
  unfold initCallsOf in Hc.
  destruct (entryInstructions m) as [[bb insts]|] eqn:He; simpl in Hc; [|discriminate].
  destruct (forallb directCall (beforeReturn insts)) eqn:Hall; [|discriminate].
  injection Hc as <-.
  destruct (beforeReturn_elem insts c Hin) as [Hi Hr].
  destruct (entryInstructions_inv m bb insts He) as (? & ? & ? & _ & _ & Hinsts & _).
  rewrite forallb_forall in Hall.
  pose proof (Hall c (proj1 (list_elem_of_In _ _) Hin)) as Hd.
  unfold directCall, calleeIsFunction in Hd. rewrite Hcv in Hd.
  apply andb_true_iff in Hd as [Hcall Hfn].
  unfold acceptedInit in Hacc. rewrite Hcv in Hacc.
  exists bb, insts, fn. rewrite Hinsts.
  repeat split; try assumption.
  intros ->. apply (dummy_fresh m bb). rewrite Hinsts. exact Hi.
Qed.

Lemma Run_erases_init_calls_only_witness :
  Erased Fixtures.callA ∈ fst (Run evalBasicBlockSpec 3 Fixtures.progFails false) ∧
  Fixtures.callA ≠ dummyOf Fixtures.progFails.
Proof.
  assert (Erased Fixtures.callA
          ∈ fst (Run evalBasicBlockSpec 3 Fixtures.progFails false)) as H.
  { vm_compute. apply list_elem_of_here. }
  split; [exact H|].
  destruct (Run_erases_init_calls_only evalBasicBlockSpec 3 Fixtures.progFails false
              Fixtures.callA H) as (bb & insts & fn & _ & _ & _ & _ & _ & Hne & _).
  exact Hne.
Defined.

(** X8. [function] has no error and no result of its own: whatever it
    returns, value and error, is what the evaluation of one of the blocks
    returned together with no outgoing block, and the [Eval] it leaves is the
    one that evaluation left. *)
Theorem function_returns_what_a_block_returned (ev : evalBasicBlock_t) (fuel : nat)
    (fn : llvm.Value) (params : list Value) (pkgName indent : string)
    (e e' : Eval_) (r : option Value) (err : option error) :
  function ev fuel fn params pkgName indent e = (Done (r, err), e') →
  ∃ n fr0 fr1 bb0 lastBB0 e0,
    (n < fuel)%nat ∧
    ev (function ev n) fr0 bb0 lastBB0 indent e0
    = (Done (fr1, (r, None, err)), e').
Proof. apply function_returns. Qed.

Lemma function_returns_what_a_block_returned_witness :
  ∃ n fr0 fr1 bb0 lastBB0 e0,
    (n < 3)%nat ∧
    evalBasicBlockSpec (function evalBasicBlockSpec n) fr0 bb0 lastBB0 "" e0
    = (Done (fr1, (None, None, Some unevaluable)),
       snd (evalInit evalBasicBlockSpec 3 Fixtures.callB
              (erasedFor Fixtures.callA
                 (addDirty Fixtures.x (startEval Fixtures.progFails false))))).
Proof.
  apply (function_returns_what_a_block_returned evalBasicBlockSpec 3 Fixtures.bInit
           initParams "b" ""
           (erasedFor Fixtures.callB
              (erasedFor Fixtures.callA
                 (addDirty Fixtures.x (startEval Fixtures.progFails false))))).
  vm_compute. reflexivity.
Defined.

(** ** The IR comparison as a whole *)
Section fuzzyEqualIR_whole.

Lemma Split1_not_nil (s : string) (sep : ascii) : strings.Split1 s sep ≠ [].
Proof.
  destruct s as [|c s]; simpl; [discriminate|].
  destruct (Ascii.eqb c sep); [discriminate|].
  destruct (strings.Split1 s sep); discriminate.
Qed.

(** Splitting at the separator that stands between two strings. *)
Lemma Split1_app (a b : string) (sep : ascii) :
  strings.Split1 (String.append a (String sep b)) sep
  = (strings.Split1 a sep ++ strings.Split1 b sep)%list.
Proof.
  induction a as [|c a IH].
  - simpl. rewrite Ascii.eqb_refl. reflexivity.
  - change (String.append (String c a) (String sep b))
      with (String c (String.append a (String sep b))).
    simpl. destruct (Ascii.eqb c sep).
    + rewrite IH. reflexivity.
    + rewrite IH. pose proof (Split1_not_nil a sep) as Hn.
      destruct (strings.Split1 a sep) as [|piece pieces]; [contradiction|reflexivity].
Qed.

(** A string without the separator is one piece. *)
Lemma Split1_one (s : string) (sep : ascii) :
  occursIn sep s = false → strings.Split1 s sep = [s].
Proof.
  induction s as [|c s IH]; simpl; [reflexivity|].
  intros [Hc Hs]%orb_false_iff. rewrite Hc, (IH Hs). reflexivity.
Qed.

Lemma Split1_joinLines (sep : ascii) (line : string) (lines : list string) :
  Forall (λ l, occursIn sep l = false) (line :: lines) →
  strings.Split1 (joinLines sep (line :: lines)) sep = line :: lines.
Proof.
  revert line. induction lines as [|l2 lines IH]; intros line Hall.
  - simpl. apply Split1_one. inversion Hall; assumption.
  - change (joinLines sep (line :: l2 :: lines))
      with (String.append line (String sep (joinLines sep (l2 :: lines)))).
    inversion Hall as [|? ? Hl Hrest]; subst.
    rewrite Split1_app, (Split1_one line sep Hl), (IH l2 Hrest). reflexivity.
Qed.

Lemma keptLines_app (a b : string) :
  keptLines (String.append a (String newline b)) = (keptLines a ++ keptLines b)%list.
Proof. unfold keptLines. rewrite Split1_app, filter_app. reflexivity. Qed.

Lemma keptLines_irrelevant (line : string) :
  irrelevantLine line → occursIn newline line = false → keptLines line = [].
Proof.
  intros Hi Hn. unfold keptLines. rewrite (Split1_one line newline Hn).
  rewrite filter_cons. destruct (decide (¬ irrelevantLine line)); [contradiction|].
  reflexivity.
Qed.

Lemma keptLines_joinLines (lines : list string) :
  Forall (λ l, ¬ irrelevantLine l ∧ occursIn newline l = false) lines →
  keptLines (joinLines newline lines) = lines.
Proof.
  intros Hall. destruct lines as [|line lines].
  - reflexivity.
  - unfold keptLines. rewrite Split1_joinLines.
    + induction Hall as [|l ls [Hk _] _ IH]; [reflexivity|].
      rewrite filter_cons, decide_True by exact Hk. rewrite IH. reflexivity.
    + eapply Forall_impl; [exact Hall|]. simpl. tauto.
Qed.

End fuzzyEqualIR_whole.

(** X9. [fuzzyEqualIR] is transitive: with the reflexivity and the symmetry
    it has, it is an equivalence on IR texts. *)
Theorem fuzzyEqualIR_transitive (s1 s2 s3 : string) :
  fuzzyEqualIR s1 s2 = Done true → fuzzyEqualIR s2 s3 = Done true →
  fuzzyEqualIR s1 s3 = Done true.
Proof.
  rewrite !fuzzyEqualIR_decides. intros [= E1] [= E2].
  apply bool_decide_eq_true in E1, E2. f_equal. apply bool_decide_eq_true. congruence.
Qed.

Lemma fuzzyEqualIR_transitive_witness :
  fuzzyEqualIR "; one
ret void" "ret void
" = Done true ∧
  fuzzyEqualIR "ret void
" "source_filename = 1
ret void" = Done true ∧
  fuzzyEqualIR "; one
ret void" "source_filename = 1
ret void" = Done true.
Proof.
  assert (fuzzyEqualIR "; one
ret void" "ret void
" = Done true) as H1 by (vm_compute; reflexivity).
  assert (fuzzyEqualIR "ret void
" "source_filename = 1
ret void" = Done true) as H2 by (vm_compute; reflexivity).
  split; [exact H1|]. split; [exact H2|].
  exact (fuzzyEqualIR_transitive _ _ _ H1 H2).
Defined.

(** X10. A line that is empty, a comment or the [source_filename] line can be
    put between any two parts of an IR text without a change in what
    [fuzzyEqualIR] answers against any other text; so can a newline at the
    end. *)
Theorem fuzzyEqualIR_ignores_irrelevant_lines (a b line other : string) :
  irrelevantLine line → occursIn newline line = false →
  fuzzyEqualIR (String.append a (String newline
                  (String.append line (String newline b)))) other
  = fuzzyEqualIR (String.append a (String newline b)) other ∧
  fuzzyEqualIR (String.append a (String newline "")) other = fuzzyEqualIR a other.
Proof.
  intros Hi Hn. rewrite !fuzzyEqualIR_decides, !keptLines_app.
  rewrite (keptLines_irrelevant line Hi Hn).
  assert (keptLines "" = []) as -> by reflexivity.
  rewrite app_nil_r. split; reflexivity.
Qed.

Lemma fuzzyEqualIR_ignores_irrelevant_lines_witness :
  fuzzyEqualIR "define void @f()
; a comment
ret void" "define void @f()
ret void"
  = fuzzyEqualIR "define void @f()
ret void" "define void @f()
ret void".
Proof.
  refine (proj1 (fuzzyEqualIR_ignores_irrelevant_lines "define void @f()" "ret void"
                   "; a comment" _ _ _)).
  - right. left. eexists. reflexivity.
  - reflexivity.
Defined.

(** X11. On texts made of relevant lines only, [fuzzyEqualIR] is equality:
    two lists of lines, none of them irrelevant and none with a newline in
    it, joined by newlines, compare equal exactly when the lists are the
    same. *)
Theorem fuzzyEqualIR_exact_on_relevant_lines (lines1 lines2 : list string) :
  Forall (λ l, ¬ irrelevantLine l ∧ occursIn newline l = false) lines1 →
  Forall (λ l, ¬ irrelevantLine l ∧ occursIn newline l = false) lines2 →
  (fuzzyEqualIR (joinLines newline lines1) (joinLines newline lines2) = Done true
   ↔ lines1 = lines2).
Proof.
  intros H1 H2. rewrite fuzzyEqualIR_decides.
  rewrite (keptLines_joinLines lines1 H1), (keptLines_joinLines lines2 H2).
  split.
  - intros [= E]. apply bool_decide_eq_true in E. exact E.
  - intros ->. f_equal. apply bool_decide_eq_true. reflexivity.
Qed.

Lemma fuzzyEqualIR_exact_on_relevant_lines_witness :
  fuzzyEqualIR (joinLines newline ["define void @f()"; "ret void"])
               (joinLines newline ["define void @f()"; "ret i32 0"]) = Done true
  ↔ ["define void @f()"; "ret void"] = ["define void @f()"; "ret i32 0"].
Proof.
  apply (fuzzyEqualIR_exact_on_relevant_lines
           ["define void @f()"; "ret void"] ["define void @f()"; "ret i32 0"]).
  - repeat constructor; intros H; apply skipsLine_irrelevant in H; discriminate H.
  - repeat constructor; intros H; apply skipsLine_irrelevant in H; discriminate H.
Defined.

(** X12. [filterIrrelevantIRLines] works line by line: the result for two
    slices one after the other is the two results one after the other; what
    it returns it returns unchanged when given it again; every line it
    returns is a line of the input that is not irrelevant, and the lines come
    in the order of the input. *)
Theorem filterIrrelevantIRLines_line_by_line (lines1 lines2 : list string) :
  filterIrrelevantIRLines (lines1 ++ lines2)
  = (filterIrrelevantIRLines lines1 ++ filterIrrelevantIRLines lines2)%list ∧
  filterIrrelevantIRLines (filterIrrelevantIRLines lines1)
  = filterIrrelevantIRLines lines1 ∧
  (∀ line, line ∈ filterIrrelevantIRLines lines1
           ↔ line ∈ lines1 ∧ skipsLine line = false) ∧
  sublist (filterIrrelevantIRLines lines1) lines1.
Proof.
  rewrite !filterIrrelevantIRLines_filter.
  split; [apply filter_app|]. split; [apply list_filter_filter_l; tauto|].
  split; [|apply sublist_filter].
  intros line. rewrite list_elem_of_filter. split.
  - intros [Hk Hin]. split; [exact Hin|].
    destruct (skipsLine line) eqn:E; [|reflexivity].
    exfalso. apply Hk, skipsLine_irrelevant, E.
  - intros [Hin Hs]. split; [|exact Hin].
    intros Hi. apply skipsLine_irrelevant in Hi. congruence.
Qed.

(** ** The loop of [function] over the blocks *)


